(** * P-SGD with differential privacy: the gradient pipeline of [train_psgd_dp.py]

    A shallow embedding of the parameter vectorizer ([get_model_param_vec],
    [get_model_grad_vec], [update_grad], [update_param]), of the two
    clipping kernels ([clip_column], [inplace_clipping]) and of the
    single training step [P_SGD_DP], followed by the properties of the
    specification that concern them.

    Conventions of the embedding.
    - A tensor is its shape together with its elements in row-major order,
      on any device.  A flat vector is a [vector]: a numpy array or a torch
      tensor, which hold the same elements but are not interchangeable
      ([param.data] accepts only a tensor).
    - Python exceptions are values of [error]; a function that mutates an
      argument returns the final contents of that argument, also when it
      raises part-way.
    - Floating-point scalars are modelled by [ext]: finite values are exact
      reals, and the IEEE special values [+inf], [-inf] and [nan] appear
      where the code divides by zero.  Rounding, overflow and the sign of
      zero are not modelled. *)

From Stdlib Require Import List Arith Lia Bool.
From Stdlib Require String.
From Stdlib Require Import Reals Lra.
Import ListNotations.

Set Implicit Arguments.

(** ** Exceptions and results *)

Inductive error : Type :=
| ValueError_concatenate      (* np.concatenate: need at least one array *)
| RuntimeError_cat            (* torch.cat: expected a non-empty list of Tensors *)
| AttributeError_NoneType     (* attribute access on a gradient that is None *)
| RuntimeError_reshape        (* reshape: shape is invalid for input of that size *)
| RuntimeError_matmul         (* matmul: inner dimensions differ *)
| RuntimeError_empty_reduce   (* max/median of a tensor without elements *)
| RuntimeError_normal_std     (* normal expects std >= 0.0 *)
| TypeError_NoneType          (* a tensor operation applied to None *)
| ZeroDivisionError           (* Python float division by the int 0 *)
| ValueError_reshape          (* numpy reshape: cannot reshape array of that size *)
| TypeError_data              (* param.data = x: data has to be a tensor *)
| TypeError_from_numpy.       (* torch.from_numpy: expected np.ndarray *)

Inductive result (A : Type) : Type :=
| Ok (a : A)
| Err (e : error).

Arguments Ok {A} a.
Arguments Err {A} e.

Definition bind {A B : Type} (r : result A) (k : A -> result B) : result B :=
  match r with
  | Ok a => k a
  | Err e => Err e
  end.

Notation "x <- r ;; k" := (bind r (fun x => k))
  (at level 61, r at next level, right associativity).

(** ** ParameterVectorizer *)

Module Vectorizer.
Section WithElements.

Variable A : Type.

(** A tensor: [shape] as torch reports it, [storage] the elements in
    row-major order (what [reshape(-1)] returns). *)
Record tensor : Type := mkTensor {
  shape : list nat;
  storage : list A
}.

(** One entry of [model.named_parameters()]: [param.data] and [param.grad]
    (which is [None] until a backward pass has filled it). *)
Record param : Type := mkParam {
  pname : String.string;
  data : tensor;
  grad : option tensor
}.

(** [model.named_parameters()], in its iteration order. *)
Definition model : Type := list param.

(** [size = 1; for i in range(len(list(arr_shape))): size *= arr_shape[i]] *)
Definition numel (arr_shape : list nat) : nat :=
  fold_left Nat.mul arr_shape 1.

(** [v[i:j]] for [0 <= i <= j]; Python clamps the bounds to [len(v)]. *)
Definition slice (v : list A) (i j : nat) : list A :=
  firstn (j - i) (skipn i v).

(** [v.reshape(arr_shape)] of a one-dimensional [v]. *)
Definition reshape (v : list A) (arr_shape : list nat) : result tensor :=
  if length v =? numel arr_shape
  then Ok (mkTensor arr_shape v)
  else Err RuntimeError_reshape.

Definition set_data (p : param) (t : tensor) : param :=
  mkParam (pname p) t (grad p).

Definition set_grad (p : param) (t : tensor) : param :=
  mkParam (pname p) (data p) (Some t).

(** A one-dimensional vector as Python holds it: a [numpy.ndarray] or a
    [torch.Tensor]. *)
Inductive vector : Type :=
| Ndarray (elements : list A)
| Tensor (elements : list A).


(** [get_model_param_vec]: every [param.data] turned into a flat numpy
    array ([.detach().cpu().numpy().reshape(-1)]), concatenated by
    [np.concatenate], which rejects an empty list of arrays.  The result
    is a numpy array. *)
Definition get_model_param_vec (m : model) : result vector :=
  let vec := map (fun p => storage (data p)) m in
  match vec with
  | [] => Err ValueError_concatenate
  | _ => Ok (Ndarray (concat vec))
  end.

(** The loop of [get_model_grad_vec]: [param.grad.detach().reshape(-1)]. *)
Fixpoint grad_vecs (m : model) : result (list (list A)) :=
  match m with
  | [] => Ok []
  | p :: rest =>
      match grad p with
      | None => Err AttributeError_NoneType
      | Some g => vs <- grad_vecs rest ;; Ok (storage g :: vs)
      end
  end.

(** [get_model_grad_vec]: [torch.cat] rejects an empty list of tensors. *)
Definition get_model_grad_vec (m : model) : result (list A) :=
  vec <- grad_vecs m ;;
  match vec with
  | [] => Err RuntimeError_cat
  | _ => Ok (concat vec)
  end.

(** The loop of [update_grad] from offset [idx] on.  Returns the parameters
    as the loop leaves them and the exception that ended it, if any: the
    parameters before the failing one keep their new gradient. *)
Fixpoint update_grad_from (m : model) (grad_vec : list A) (idx : nat)
  : model * option error :=
  match m with
  | [] => ([], None)
  | p :: rest =>
      match grad p with
      | None => (p :: rest, Some AttributeError_NoneType)
      | Some g =>
          let arr_shape := shape g in
          let size := numel arr_shape in
          match reshape (slice grad_vec idx (idx + size)) arr_shape with
          | Err e => (p :: rest, Some e)
          | Ok t =>
              let (rest', r) := update_grad_from rest grad_vec (idx + size) in
              (set_grad p t :: rest', r)
          end
      end
  end.

Definition update_grad (m : model) (grad_vec : list A) : model * option error :=
  update_grad_from m grad_vec 0.

(** The loop of [update_param] from offset [idx] on, for a [param_vec]
    that is a tensor (its elements are given). *)
Fixpoint update_param_from (m : model) (param_vec : list A) (idx : nat)
  : model * option error :=
  match m with
  | [] => ([], None)
  | p :: rest =>
      let arr_shape := shape (data p) in
      let size := numel arr_shape in
      match reshape (slice param_vec idx (idx + size)) arr_shape with
      | Err e => (p :: rest, Some e)
      | Ok t =>
          let (rest', r) := update_param_from rest param_vec (idx + size) in
          (set_data p t :: rest', r)
      end
  end.

Definition update_param (m : model) (param_vec : list A) : model * option error :=
  update_param_from m param_vec 0.



(** *** Shape descriptors and well-formed models *)

(** The number of elements the declared parameter shapes add up to. *)
Definition total_numel (m : model) : nat :=
  list_sum (map (fun p => numel (shape (data p))) m).

(** A tensor holds as many elements as its shape says. *)
Definition tensor_wf (t : tensor) : Prop :=
  length (storage t) = numel (shape t).


(** Every parameter has a gradient, of the parameter's shape (what a
    backward pass leaves behind). *)
Definition grads_allocated (m : model) : Prop :=
  Forall (fun p => exists g, grad p = Some g /\ shape g = shape (data p)) m.

End WithElements.
End Vectorizer.

(** ** Floating-point scalars *)

Open Scope R_scope.

(** A float: a finite real, an infinity or a NaN. *)
Inductive ext : Type :=
| Fin (x : R)
| PInf
| NInf
| NaN.

Definition eadd (a b : ext) : ext :=
  match a, b with
  | NaN, _ | _, NaN => NaN
  | Fin x, Fin y => Fin (x + y)
  | PInf, NInf | NInf, PInf => NaN
  | PInf, _ | _, PInf => PInf
  | NInf, _ | _, NInf => NInf
  end.

(** The product of an infinity of sign [pos] with the finite [x]. *)
Definition inf_times (pos : bool) (x : R) : ext :=
  if Rlt_dec 0 x then (if pos then PInf else NInf)
  else if Rlt_dec x 0 then (if pos then NInf else PInf)
  else NaN.

Definition emul (a b : ext) : ext :=
  match a, b with
  | NaN, _ | _, NaN => NaN
  | Fin x, Fin y => Fin (x * y)
  | Fin x, PInf | PInf, Fin x => inf_times true x
  | Fin x, NInf | NInf, Fin x => inf_times false x
  | PInf, PInf | NInf, NInf => PInf
  | PInf, NInf | NInf, PInf => NInf
  end.

(** IEEE division; a zero divisor is taken to be [+0]. *)
Definition ediv (a b : ext) : ext :=
  match a, b with
  | NaN, _ | _, NaN => NaN
  | Fin x, Fin y =>
      if Req_dec_T y 0 then inf_times true x else Fin (x / y)
  | Fin _, PInf | Fin _, NInf => Fin 0
  | PInf, Fin y => if Rlt_dec y 0 then NInf else PInf
  | NInf, Fin y => if Rlt_dec y 0 then PInf else NInf
  | _, _ => NaN
  end.

Definition esqrt (a : ext) : ext :=
  match a with
  | Fin x => if Rlt_dec x 0 then NaN else Fin (sqrt x)
  | PInf => PInf
  | NInf | NaN => NaN
  end.

(** [a > b]; false as soon as one side is NaN. *)
Definition egtb (a b : ext) : bool :=
  match a, b with
  | Fin x, Fin y => if Rlt_dec y x then true else false
  | PInf, Fin _ | PInf, NInf | Fin _, NInf => true
  | _, _ => false
  end.

Definition is_nan (a : ext) : bool :=
  match a with NaN => true | _ => false end.

Definition is_finite (a : ext) : bool :=
  match a with Fin _ => true | _ => false end.

(** [torch.clamp(a, max=hi)]: NaN is propagated. *)
Definition clamp_max (a hi : ext) : ext :=
  if is_nan a then NaN else if egtb a hi then hi else a.

(** [max] of two elements as torch reduces them: NaN is propagated. *)
Definition emax (a b : ext) : ext :=
  if is_nan a || is_nan b then NaN else if egtb b a then b else a.

(** ** Tensors of floats *)

(** A two-dimensional tensor: its rows, and the number of columns (which
    torch keeps also when there are no rows). *)
Record matrix : Type := mkMatrix {
  ncols : nat;
  mrows : list (list ext)
}.

Definition nrows (M : matrix) : nat := length (mrows M).

(** The matrix of the finite reals [rows]. *)
Definition of_reals (k : nat) (rows : list (list R)) : matrix :=
  mkMatrix k (map (map Fin) rows).

(** [torch.sum(v)] *)
Definition tsum (v : list ext) : ext := fold_right eadd (Fin 0) v.

(** [torch.mean(v)]: NaN on a tensor without elements. *)
Definition tmean (v : list ext) : ext :=
  ediv (tsum v) (Fin (INR (length v))).

(** [torch.max(v)] *)
Definition tmax (v : list ext) : result ext :=
  match v with
  | [] => Err RuntimeError_empty_reduce
  | x :: xs => Ok (fold_left emax xs x)
  end.

(** [a <= b] on floats that are not NaN. *)
Definition eleb (a b : ext) : bool := negb (egtb a b).

Fixpoint insert_sorted (x : ext) (l : list ext) : list ext :=
  match l with
  | [] => [x]
  | y :: l' => if eleb x y then x :: y :: l' else y :: insert_sorted x l'
  end.

Definition sort_asc (l : list ext) : list ext :=
  fold_right insert_sorted [] l.

(** [torch.median(v)]: the lower median; NaN when an element is NaN. *)
Definition tmedian (v : list ext) : result ext :=
  match v with
  | [] => Err RuntimeError_empty_reduce
  | _ =>
      if existsb is_nan v then Ok NaN
      else Ok (nth ((length v - 1) / 2) (sort_asc v) NaN)
  end.

(** Column [j] of a matrix. *)
Definition col (j : nat) (M : matrix) : list ext :=
  map (fun r => nth j r (Fin 0)) (mrows M).

(** [M.T] *)
Definition transpose (M : matrix) : matrix :=
  mkMatrix (nrows M) (map (fun j => col j M) (seq 0 (ncols M))).

Definition dot (a b : list ext) : ext :=
  tsum (map (fun xy => emul (fst xy) (snd xy)) (combine a b)).

(** [torch.matmul(A, B)] of two-dimensional tensors. *)
Definition matmul (A B : matrix) : result matrix :=
  if (ncols A =? nrows B)%nat
  then Ok (mkMatrix (ncols B)
             (map (fun a => map (fun j => dot a (col j B)) (seq 0 (ncols B)))
                  (mrows A)))
  else Err RuntimeError_matmul.

(** [torch.sum(M, dim=0)] and [torch.mean(M, dim=0)] *)
Definition sum_dim0 (M : matrix) : list ext :=
  map (fun j => tsum (col j M)) (seq 0 (ncols M)).

Definition mean_dim0 (M : matrix) : list ext :=
  map (fun j => tmean (col j M)) (seq 0 (ncols M)).

(** [torch.norm(M, dim=1)]: the L2 norm of every row. *)
Definition row_norm (r : list ext) : ext :=
  esqrt (tsum (map (fun x => emul x x) r)).

Definition norm_dim1 (M : matrix) : list ext := map row_norm (mrows M).

(** [v.view(1, -1)] and [M.reshape(-1)] *)
Definition view_row (v : list ext) : matrix := mkMatrix (length v) [v].

Definition flatten (M : matrix) : list ext := concat (mrows M).

(** ** PerExampleClipper *)

(** The functional branch of [clip_column]:
    [scale = torch.clamp(clip/norms, max=1.0); tsr * scale.view(-1, 1)]. *)
Definition clip_scale (clip : ext) (tsr : matrix) : list ext :=
  map (fun nrm => clamp_max (ediv clip nrm) (Fin 1)) (norm_dim1 tsr).

Definition scale_rows (tsr : matrix) (scale : list ext) : matrix :=
  mkMatrix (ncols tsr)
    (map (fun rs => map (fun x => emul x (snd rs)) (fst rs))
         (combine (mrows tsr) scale)).

(** One iteration of the loop of [inplace_clipping] on row [i]:
    [col_norm = sqrt(sum(col ** 2)); if col_norm > clip: col /= col_norm/clip]. *)
Definition clip_row_inplace (clip : ext) (col : list ext) : list ext :=
  let col_norm := esqrt (tsum (map (fun x => emul x x) col)) in
  if egtb col_norm clip
  then map (fun x => ediv x (ediv col_norm clip)) col
  else col.

(** [inplace_clipping(matrix, clip)]: the contents of [matrix] afterwards. *)
Definition inplace_clipping (M : matrix) (clip : ext) : matrix :=
  mkMatrix (ncols M) (map (clip_row_inplace clip) (mrows M)).

(** [clip_column(tsr, clip, inplace)]: the value returned ([None] in the
    in-place branch) and the contents of [tsr] afterwards.  The defaults
    [clip=1.0] and [inplace=True] are left to the caller. *)
Definition clip_column (tsr : matrix) (clip : ext) (inplace : bool)
  : option matrix * matrix :=
  if inplace
  then (None, inplace_clipping tsr clip)
  else (Some (scale_rows tsr (clip_scale clip tsr)), tsr).

(** ** PrivacyNoiseInjector *)

(** The state of torch's global default generator, given by the standard
    normal variates it is going to produce ([set_seed] fixes it). *)
Definition generator : Type := nat -> R.

(** Draw [n] standard normal variates and advance the generator. *)
Definition randn (gen : generator) (n : nat) : list R * generator :=
  (map gen (seq 0 n), fun i => gen (n + i)%nat).

(** [a >= b]; false as soon as one side is NaN. *)
Definition egeb (a b : ext) : bool :=
  match a, b with
  | NaN, _ | _, NaN => false
  | _, _ => negb (egtb b a)
  end.

(** [torch.normal(mean, std, size=(n,))] with scalar [mean] and [std]:
    torch checks [std >= 0.0], then fills the tensor with
    [mean + std * z] for standard normal variates [z].  No generator is
    passed, so the variates come from the global one. *)
Definition torch_normal (mean std : ext) (n : nat) (gen : generator)
  : result (list ext) * generator :=
  if egeb std (Fin 0)
  then let (z, gen') := randn gen n in
       (Ok (map (fun zi => eadd mean (emul std (Fin zi))) z), gen')
  else (Err RuntimeError_normal_std, gen).

(** [x / n] for a Python float [x] and a Python int [n]. *)
Definition float_truediv (x : ext) (n : nat) : result ext :=
  if (n =? 0)%nat then Err ZeroDivisionError else Ok (ediv x (Fin (INR n))).

(** Elementwise [a + b] and [a - b] of tensors of one shape. *)
Definition vadd (a b : list ext) : list ext :=
  map (fun xy => eadd (fst xy) (snd xy)) (combine a b).

Definition eneg (a : ext) : ext :=
  match a with
  | Fin x => Fin (- x)
  | PInf => NInf
  | NInf => PInf
  | NaN => NaN
  end.

Definition vsub (a b : list ext) : list ext :=
  map (fun xy => eadd (fst xy) (eneg (snd xy))) (combine a b).

(** Lines 398-400 of [P_SGD_DP]:
    [theta_noise = torch.normal(0, noise_multiplier * clip / embedding.shape[0], ...)]
    [clipped_theta += theta_noise]. *)
Definition add_theta_noise (clipped_theta : list ext)
    (noise_multiplier clip : ext) (n : nat) (gen : generator)
  : result (list ext) * generator :=
  match float_truediv (emul noise_multiplier clip) n with
  | Err e => (Err e, gen)
  | Ok std =>
      match torch_normal (Fin 0) std (length clipped_theta) gen with
      | (Err e, gen') => (Err e, gen')
      | (Ok theta_noise, gen') => (Ok (vadd clipped_theta theta_noise), gen')
      end
  end.

(** ** GradientPipelineOrchestrator *)

(** [[torch.mean(v).item(), torch.max(v).item(), torch.median(v).item()]] *)
Definition norms_stat (v : list ext) : result (list ext) :=
  mx <- tmax v ;;
  md <- tmedian v ;;
  Ok [tmean v; mx; md].

(** Lines 377-379 of [P_SGD_DP]: the relative error of the projected mean
    gradient.  The step computes it and uses it nowhere. *)
Definition cur_error (P grad embedding : matrix) : result ext :=
  approx <- matmul (view_row (mean_dim0 embedding)) P ;;
  let cur_approx := flatten approx in
  let cur_target := mean_dim0 grad in
  let sq := map (fun x => emul x x) in
  Ok (ediv (tsum (sq (vsub cur_approx cur_target))) (tsum (sq cur_target))).

(** The module-level state the step reads: the basis [P] that [main]
    computes, and torch's global default generator. *)
Record globals : Type := mkGlobals {
  P : matrix;
  default_generator : generator
}.

(** [project] and [reconstruct] as the step writes them:
    [torch.matmul(grad, P.T)] and [torch.matmul(theta.view(1, -1), P)]. *)
Definition project (basis batch : matrix) : result matrix :=
  matmul batch (transpose basis).

Definition reconstruct (basis embedding : matrix) : result matrix :=
  matmul embedding basis.

Section Step.

(** The optimizer is a collaborator: [optimizer.step()] reads the gradients,
    updates the parameters and its own buffers. *)
Variable opt_state : Type.
Variable optimizer_step :
  opt_state -> Vectorizer.model ext -> opt_state * Vectorizer.model ext.

(** What a call leaves behind: the model, the optimizer and the
    module-level state. *)
Record state : Type := mkState {
  st_model : Vectorizer.model ext;
  st_opt : opt_state;
  st_globals : globals
}.

(** [P_SGD_DP(model, optimizer, grad, oldf, X, y, noise_multiplier, clip)];
    [oldf], [X] and [y] are not used by the body.  The basis and the
    generator are not arguments: the body reads the global [P] and
    [torch.normal] draws from the global generator.  Returns
    [(org_norms_stat, clipped_norms_stat)] or the exception raised, and the
    state the call leaves behind. *)
Definition P_SGD_DP (G : globals) (model : Vectorizer.model ext)
    (optimizer : opt_state) (grad : matrix) (noise_multiplier clip : ext)
  : result (list ext * list ext) * state :=
  let unchanged := mkState model optimizer G in
  let selected_bases := transpose (P G) in
  let selected_bases_T := P G in
  match matmul grad selected_bases with
  | Err e => (Err e, unchanged)
  | Ok embedding =>
  match cur_error selected_bases_T grad embedding with
  | Err e => (Err e, unchanged)
  | Ok _ =>
  let embedding_norms := norm_dim1 embedding in
  match norms_stat embedding_norms with
  | Err e => (Err e, unchanged)
  | Ok org_norms_stat =>
  match fst (clip_column embedding clip false) with
  | None => (Err TypeError_NoneType, unchanged)
  | Some clipped_embedding =>
  let clipped_norms := norm_dim1 clipped_embedding in
  match norms_stat clipped_norms with
  | Err e => (Err e, unchanged)
  | Ok clipped_norms_stat =>
  let avg_clipped_embedding :=
    map (fun s => ediv s (Fin (INR (nrows embedding))))
        (sum_dim0 clipped_embedding) in
  let clipped_theta := avg_clipped_embedding in
  match add_theta_noise clipped_theta noise_multiplier clip
          (nrows embedding) (default_generator G) with
  | (Err e, gen') => (Err e, mkState model optimizer (mkGlobals (P G) gen'))
  | (Ok noisy_theta, gen') =>
  let G' := mkGlobals (P G) gen' in
  match matmul (view_row noisy_theta) selected_bases_T with
  | Err e => (Err e, mkState model optimizer G')
  | Ok noisy =>
  let noisy_grad := flatten noisy in
  match Vectorizer.update_grad model noisy_grad with
  | (model', Some e) => (Err e, mkState model' optimizer G')
  | (model', None) =>
  let (optimizer', model'') := optimizer_step optimizer model' in
  (Ok (org_norms_stat, clipped_norms_stat), mkState model'' optimizer' G')
  end end end end end end end end.

End Step.

(** ** Concrete inputs used below *)

Module Examples.
Import Vectorizer.
Import String.
Local Open Scope string_scope.

Definition reals (l : list R) : list ext := map Fin l.

(** The scenario of the specification: three parameters of shapes (2),
    (3,2) and (1), nine elements in all, with gradients of zeros. *)
Definition scenario_model : model ext :=
  [ mkParam "weight" (mkTensor [2%nat] (reals [1; 2]))
      (Some (mkTensor [2%nat] (reals [0; 0])));
    mkParam "kernel" (mkTensor [3%nat; 2%nat] (reals [3; 4; 5; 6; 7; 8]))
      (Some (mkTensor [3%nat; 2%nat] (reals [0; 0; 0; 0; 0; 0])));
    mkParam "bias" (mkTensor [1%nat] (reals [9]))
      (Some (mkTensor [1%nat] (reals [0]))) ].

Definition nine : list ext := reals [10; 20; 30; 40; 50; 60; 70; 80; 90].
Definition eight : list ext := reals [10; 20; 30; 40; 50; 60; 70; 80].
Definition ten : list ext := nine ++ reals [100].

(** A module without parameters. *)
Definition no_params : model ext := [].

(** An embedding of two rows: one of norm five, one of norm zero. *)
Definition embedding_rows : list (list R) := [[3; 4]; [0; 0]].

(** A single row holding a single zero. *)
Definition zero_rows : list (list R) := [[0]].

(** The smallest pipeline: a basis of one row in dimension one, a batch of
    one zero gradient, a model of one scalar parameter, and an optimizer
    that leaves everything as it is. *)
Definition basis1 : matrix := of_reals 1 [[1]].
Definition batch1 : matrix := of_reals 1 [[0]].
Definition empty_batch : matrix := of_reals 1 [].
Definition model1 : model ext :=
  [ mkParam "w" (mkTensor [1%nat] (reals [0]))
      (Some (mkTensor [1%nat] (reals [0]))) ].
Definition idle_step (o : unit) (m : model ext) : unit * model ext := (o, m).

Definition gen_ones : generator := fun _ => 1.

(** A basis of one row in dimension two. *)
Definition basis_rows : list (list R) := [[1; 0]].

End Examples.

(** ** Notions used to state the properties *)

(** The L2 norm of a row of reals. *)
Definition rnorm (r : list R) : R :=
  sqrt (fold_right Rplus 0 (map (fun x => x * x) r)).

(** What the specification asks of a clipped row [out], for the row [r]
    and the bound [c]: norm at most [c]; [r] itself when its norm is at
    most [c]; [r] scaled by [c / norm] otherwise. *)
Definition row_clipped (c : R) (r : list R) (out : list ext) : Prop :=
  (exists n', row_norm out = Fin n' /\ n' <= c) /\
  (rnorm r <= c -> out = map Fin r) /\
  (c < rnorm r -> out = map (fun x => Fin (x * (c / rnorm r))) r).

(** No entry of the matrix is an infinity or a NaN. *)
Definition all_finite (M : matrix) : Prop :=
  Forall (Forall (fun x => is_finite x = true)) (mrows M).

(** The inner product of two rows of reals. *)
Definition rdot (a b : list R) : R :=
  fold_right Rplus 0 (map (fun xy => fst xy * snd xy) (combine a b)).

(** Column [j] of rows of reals. *)
Definition rcol (j : nat) (rows : list (list R)) : list R :=
  map (fun r => nth j r 0) rows.

(** The rows of a basis are orthonormal. *)
Definition orthonormal_rows (rows : list (list R)) : Prop :=
  forall i j, (i < length rows)%nat -> (j < length rows)%nat ->
    rdot (nth i rows []) (nth j rows []) = if (i =? j)%nat then 1 else 0.

(** The combination [a_1 * row_1 + ... + a_k * row_k] of rows of length [d]. *)
Fixpoint lincomb (d : nat) (a : list R) (rows : list (list R)) : list R :=
  match a, rows with
  | x :: a', r :: rows' =>
      map (fun pq => x * fst pq + snd pq) (combine r (lincomb d a' rows'))
  | _, _ => repeat 0 d
  end.

(** [v] lies in the span of the rows. *)
Definition in_row_span (d : nat) (rows : list (list R)) (v : list R) : Prop :=
  exists a, length a = length rows /\ v = lincomb d a rows.

(** ** Further notions for the vectorizer *)

(** What [update_grad] reads of a parameter: whether it has a gradient,
    and of which shape. *)
Definition grad_shape {A : Type} (p : Vectorizer.param A) : option (list nat) :=
  option_map (@Vectorizer.shape A) (Vectorizer.grad p).

(** Every gradient that exists holds as many elements as its shape says. *)
Definition grads_wf {A : Type} (m : Vectorizer.model A) : Prop :=
  Forall (fun p => forall g, Vectorizer.grad p = Some g -> Vectorizer.tensor_wf g) m.

(** ** Further concrete inputs *)

Module MoreExamples.
Import Vectorizer.
Import String.
Local Open Scope string_scope.

(** A parameter that no backward pass has reached. *)
Definition frozen : param ext :=
  mkParam "frozen" (mkTensor [2%nat] (Examples.reals [1; 1])) None.

End MoreExamples.

(** ** Further notions for the clipper *)

(** The factor by which clipping to [c] scales the row [r]. *)
Definition clip_factor (c : R) (r : list R) : R :=
  if Rle_dec (rnorm r) c then 1 else c / rnorm r.

(** The sum of a row of reals. *)
Definition rsum (l : list R) : R := fold_right Rplus 0 l.

(** ** AverageMeter *)

Module AverageMeter.

(** The four attributes of a meter; [count] is a Python int. *)
Record meter : Type := mkMeter {
  val : ext;
  avg : ext;
  sum : ext;
  count : Z
}.

(** [reset] (which [__init__] calls): everything is zero. *)
Definition reset : meter := mkMeter (Fin 0) (Fin 0) (Fin 0) 0.

(** [update(val, n)]: the attributes afterwards and the exception, if any.
    [self.sum / self.count] is the last statement and raises when the new
    count is zero; the other three attributes are assigned by then. *)
Definition update (self : meter) (v : ext) (n : Z) : meter * option error :=
  let sum' := eadd (sum self) (emul v (Fin (IZR n))) in
  let count' := (count self + n)%Z in
  if (count' =? 0)%Z
  then (mkMeter v (avg self) sum' count', Some ZeroDivisionError)
  else (mkMeter v (ediv sum' (Fin (IZR count'))) sum' count', None).

(** A run of calls of [update], as the loops of [train] and [validate]
    make them; the first exception ends the run. *)
Fixpoint updates (self : meter) (calls : list (ext * Z)) : meter * option error :=
  match calls with
  | [] => (self, None)
  | (v, n) :: rest =>
      match update self v n with
      | (self', None) => updates self' rest
      | (self', Some e) => (self', Some e)
      end
  end.

End AverageMeter.

(** The weighted sum and the total weight of a list of (value, weight). *)
Definition wsum (l : list (R * Z)) : R :=
  fold_right (fun vn acc => fst vn * IZR (snd vn) + acc) 0 l.

Definition wcount (l : list (R * Z)) : Z :=
  fold_right (fun vn acc => (snd vn + acc)%Z) 0%Z l.

(** The total weight of a run of calls. *)
Definition weights (calls : list (ext * Z)) : Z :=
  fold_right (fun c acc => (snd c + acc)%Z) 0%Z calls.

(** The calls of [update] that record the finite values of [l]. *)
Definition finite_calls (l : list (R * Z)) : list (ext * Z) :=
  map (fun vn => (Fin (fst vn), snd vn)) l.

(** ** The step without privacy *)

(** [v.reshape(-1, 1)]: a column. *)
Definition view_col (v : list ext) : matrix :=
  mkMatrix 1 (map (fun x => [x]) v).

Section PlainStep.

Variable opt_state : Type.
Variable optimizer_step :
  opt_state -> Vectorizer.model ext -> opt_state * Vectorizer.model ext.

(** [P_SGD(model, optimizer, grad, oldf, X, y)] for a one-dimensional
    [grad]; [oldf], [X] and [y] are not used by the body, and [grad_res]
    is computed and used nowhere.  [torch.mm] is [matmul] on
    two-dimensional tensors.  [update_grad] slices the column
    [grad_proj] along its rows and reshapes every slice, which is what it
    does to the flattened column.  Returns the exception raised, if any,
    and the state the call leaves behind. *)
Definition P_SGD (G : globals) (model : Vectorizer.model ext)
    (optimizer : opt_state) (grad : list ext)
  : option error * state opt_state :=
  let unchanged := mkState model optimizer G in
  match matmul (P G) (view_col grad) with
  | Err e => (Some e, unchanged)
  | Ok gk =>
  match matmul (transpose (P G)) gk with
  | Err e => (Some e, unchanged)
  | Ok grad_proj =>
  let grad_res := vsub grad (flatten grad_proj) in
  match Vectorizer.update_grad model (flatten grad_proj) with
  | (model', Some e) => (Some e, mkState model' optimizer G)
  | (model', None) =>
  let (optimizer', model'') := optimizer_step optimizer model' in
  (None, mkState model'' optimizer' G)
  end end end.

End PlainStep.

(** ** Per-example gradients *)

(** [param.grad_batch], the attribute that the backward pass under
    [BatchGrad] adds to a parameter: a tensor of shape
    [(batch_size, *example_shape)], one gradient per example. *)
Record batch_tensor : Type := mkBatch {
  batch_size : nat;
  example_shape : list nat;
  bstorage : list ext
}.

(** A parameter together with its [grad_batch] attribute, if it has one. *)
Record bparam : Type := mkBParam {
  bp_param : Vectorizer.param ext;
  grad_batch : option batch_tensor
}.

(** The [n] consecutive chunks of [c] elements of [v]. *)
Definition chunks (c n : nat) (v : list ext) : list (list ext) :=
  map (fun i => firstn c (skipn (i * c) v)) (seq 0 n).

(** [t.reshape(t.shape[0], -1)]: torch infers the second dimension, and
    refuses when the first is zero (any value would do) or does not divide
    the number of elements. *)
Definition reshape_rows (t : batch_tensor) : result matrix :=
  let n := batch_size t in
  let len := length (bstorage t) in
  if (n =? 0)%nat then Err RuntimeError_reshape
  else if (len mod n =? 0)%nat
       then Ok (mkMatrix (len / n) (chunks (len / n) n (bstorage t)))
       else Err RuntimeError_reshape.

(** [torch.cat(vec, 1)] of two-dimensional tensors: a RuntimeError on an
    empty list and on tensors that differ in their number of rows. *)
Definition cat_dim1 (vec : list matrix) : result matrix :=
  match vec with
  | [] => Err RuntimeError_cat
  | m0 :: rest =>
      if forallb (fun m => (nrows m =? nrows m0)%nat) rest
      then Ok (mkMatrix (list_sum (map ncols vec))
                 (map (fun i => concat (map (fun m => nth i (mrows m) []) vec))
                      (seq 0 (nrows m0))))
      else Err RuntimeError_cat
  end.

(** The loop of [get_model_grad_vec_batch]; a parameter without the
    attribute raises the AttributeError. *)
Fixpoint grad_batch_rows (m : list bparam) : result (list matrix) :=
  match m with
  | [] => Ok []
  | bp :: rest =>
      match grad_batch bp with
      | None => Err AttributeError_NoneType
      | Some t =>
          rows <- reshape_rows t ;;
          vec <- grad_batch_rows rest ;;
          Ok (rows :: vec)
      end
  end.

Definition get_model_grad_vec_batch (m : list bparam) : result matrix :=
  vec <- grad_batch_rows m ;;
  cat_dim1 vec.

(** The gradient of example [i] that a parameter holds, flattened. *)
Definition example_grad (i : nat) (bp : bparam) : list ext :=
  match grad_batch bp with
  | Some t =>
      let c := Vectorizer.numel (example_shape t) in
      firstn c (skipn (i * c) (bstorage t))
  | None => []
  end.

(** What a backward pass over [n] examples leaves on a parameter: a
    [grad_batch] of shape [(n, *param.shape)]. *)
Definition batch_allocated (n : nat) (bp : bparam) : Prop :=
  exists t,
    grad_batch bp = Some t /\
    batch_size t = n /\
    example_shape t = Vectorizer.shape (Vectorizer.data (bp_param bp)) /\
    length (bstorage t) = (n * Vectorizer.numel (example_shape t))%nat.

(** ** Further notions for the step *)

(** A float that is a finite value between [lo] and [hi]. *)
Definition fin_between (lo hi : R) (x : ext) : Prop :=
  exists n, x = Fin n /\ lo <= n <= hi.

(** ** Concrete per-example gradients *)

Module BatchExamples.
Import Vectorizer.
Import String.
Local Open Scope string_scope.

(** Two parameters of shapes (2) and (1) after a backward pass over two
    examples. *)
Definition two_params : list bparam :=
  [ mkBParam
      (mkParam "weight" (mkTensor [2%nat] (Examples.reals [1; 2]))
         (Some (mkTensor [2%nat] (Examples.reals [0; 0]))))
      (Some (mkBatch 2 [2%nat] (Examples.reals [1; 2; 3; 4])));
    mkBParam
      (mkParam "bias" (mkTensor [1%nat] (Examples.reals [9]))
         (Some (mkTensor [1%nat] (Examples.reals [0]))))
      (Some (mkBatch 2 [1%nat] (Examples.reals [5; 6]))) ].

(** The one-parameter model of the smallest pipeline after a backward
    pass over two examples. *)
Definition one_param : list bparam :=
  map (fun p => mkBParam p (Some (mkBatch 2 [1%nat] (Examples.reals [1; 2]))))
      Examples.model1.

(** A parameter after a backward pass over no example, and one that the
    pass has not reached. *)
Definition empty_pass : bparam :=
  mkBParam MoreExamples.frozen (Some (mkBatch 0 [2%nat] [])).

Definition unreached : bparam := mkBParam MoreExamples.frozen None.

End BatchExamples.

(** * Properties *)

(** ** ParameterVectorizer *)

Section VectorizerFacts.

Import Vectorizer.
Close Scope R_scope.
Variable A : Type.
Implicit Types (m : model A) (v : list A) (p : param A) (t : tensor A).


Lemma slice_length (v : list A) (i n : nat) :
  length (slice v i (i + n)) = Nat.min n (length v - i).
Proof.
  unfold slice. replace (i + n - i)%nat with n by lia.
  now rewrite length_firstn, length_skipn.
Qed.

Lemma reshape_ok (v : list A) (shp : list nat) :
  length v = numel shp -> reshape v shp = Ok (mkTensor shp v).
Proof. intros H. unfold reshape. now rewrite H, Nat.eqb_refl. Qed.

Lemma reshape_err (v : list A) (shp : list nat) :
  length v <> numel shp -> reshape v shp = Err RuntimeError_reshape.
Proof.
  intros H. unfold reshape.
  destruct (Nat.eqb_spec (length v) (numel shp)); [contradiction | reflexivity].
Qed.

Lemma set_data_same p : set_data p (data p) = p.
Proof. now destruct p. Qed.


Lemma get_model_param_vec_cons p m :
  get_model_param_vec (p :: m)
  = Ok (Ndarray (concat (map (fun q => storage (data q)) (p :: m)))).
Proof. reflexivity. Qed.

Lemma total_numel_cons p m :
  total_numel (p :: m) = (numel (shape (data p)) + total_numel m)%nat.
Proof. reflexivity. Qed.


(** The gradients that [update_grad] writes from offset [idx] on, when the
    vector is long enough: the consecutive slices, in iteration order. *)
Lemma update_grad_from_enough m v idx :
  grads_allocated m ->
  (idx + total_numel m <= length v)%nat ->
  exists m' vs,
    update_grad_from m v idx = (m', None) /\
    grad_vecs m' = Ok vs /\
    concat vs = firstn (total_numel m) (skipn idx v) /\
    length vs = length m /\
    map (@data A) m' = map (@data A) m /\
    grads_allocated m'.
Proof.
  intros Hg. revert idx. induction Hg as [|p m (g & Hgp & Hshape) Hm IH];
    intros idx Hlen.
  - exists [], []. repeat split; constructor.
  - rewrite total_numel_cons in Hlen. simpl. rewrite Hgp.
    assert (Hs : length (slice v idx (idx + numel (shape g))) = numel (shape g)).
    { rewrite slice_length. rewrite Hshape. lia. }
    rewrite (reshape_ok _ _ Hs).
    destruct (IH (idx + numel (shape g))%nat) as (m' & vs & E & Egv & Ecat & El & Ed & Ha).
    { rewrite Hshape. lia. }
    rewrite E.
    eexists _, _. split; [reflexivity|]. simpl. rewrite Egv. simpl.
    split; [reflexivity|]. repeat split.
    + cbn [concat]. rewrite Ecat, total_numel_cons, <- Hshape.
      unfold slice. replace (idx + numel (shape g) - idx)%nat with (numel (shape g)) by lia.
      rewrite Nat.add_comm, <- skipn_skipn.
      set (w := skipn idx v).
      rewrite <- (firstn_skipn (numel (shape g)) w) at 3.
      rewrite firstn_app.
      assert (Hw : numel (shape g) <= length w)
        by (unfold w; rewrite length_skipn; rewrite Hshape; lia).
      rewrite length_firstn, Nat.min_l by exact Hw.
      replace (numel (shape g) + total_numel m - numel (shape g))%nat
        with (total_numel m) by lia.
      f_equal. rewrite firstn_firstn. f_equal. lia.
    + simpl. now rewrite El.
    + simpl. now rewrite Ed.
    + constructor; [|exact Ha]. simpl. eexists; split; [reflexivity|exact Hshape].
Qed.

(** A vector shorter than the declared shapes require runs out at some
    parameter, where [reshape] raises. *)
Lemma update_grad_from_short m v idx :
  grads_allocated m ->
  (idx <= length v)%nat ->
  (length v < idx + total_numel m)%nat ->
  snd (update_grad_from m v idx) = Some RuntimeError_reshape.
Proof.
  intros Hg. revert idx. induction Hg as [|p m (g & Hgp & Hshape) Hm IH];
    intros idx Hle Hlt.
  - simpl in Hlt. unfold total_numel in Hlt. simpl in Hlt. lia.
  - rewrite total_numel_cons in Hlt. simpl. rewrite Hgp.
    destruct (le_lt_dec (idx + numel (shape g)) (length v)) as [Hfit|Hno].
    + assert (Hs : length (slice v idx (idx + numel (shape g))) = numel (shape g))
        by (rewrite slice_length; lia).
      rewrite (reshape_ok _ _ Hs).
      specialize (IH (idx + numel (shape g))%nat Hfit).
      destruct (update_grad_from m v (idx + numel (shape g))) as [m' r].
      simpl in *. apply IH. rewrite Hshape. lia.
    + rewrite reshape_err; [reflexivity|].
      rewrite slice_length. lia.
Qed.

End VectorizerFacts.

Section VectorizerClaims.

Import Vectorizer.
Close Scope R_scope.

(** C2 (as amended).  When every parameter has its gradient: a vector
    shorter than the declared shapes add up to makes [update_grad] raise
    (the [reshape] error), and a longer one is accepted, its first
    [total_numel m] elements written and the rest ignored. *)
Theorem update_grad_wrong_length (A : Type) (m : model A) (v : list A) :
  grads_allocated m ->
  (length v < total_numel m ->
     snd (update_grad m v) = Some RuntimeError_reshape) /\
  (total_numel m < length v ->
     exists m' vs,
       update_grad m v = (m', None) /\
       grad_vecs m' = Ok vs /\
       concat vs = firstn (total_numel m) v).
Proof.
  intros Hg. split; intros Hlen.
  - apply update_grad_from_short; [exact Hg | lia | lia].
  - destruct (@update_grad_from_enough A m v 0 Hg) as (m' & vs & E & Egv & Ecat & _);
      [lia|].
    exists m', vs. repeat split; assumption.
Qed.

Lemma scenario_model_grads : grads_allocated Examples.scenario_model.
Proof.
  repeat constructor; simpl; eexists; split; reflexivity.
Defined.

Lemma update_grad_wrong_length_witness :
  grads_allocated Examples.scenario_model /\
  snd (update_grad Examples.scenario_model Examples.eight)
    = Some RuntimeError_reshape /\
  exists m' vs,
    update_grad Examples.scenario_model Examples.ten = (m', None) /\
    grad_vecs m' = Ok vs /\
    concat vs = firstn (total_numel Examples.scenario_model) Examples.ten.
Proof.
  split; [exact scenario_model_grads|].
  destruct (update_grad_wrong_length Examples.eight scenario_model_grads) as [Hs _].
  destruct (update_grad_wrong_length Examples.ten scenario_model_grads) as [_ Hl].
  split.
  - apply Hs. vm_compute. lia.
  - apply Hl. vm_compute. lia.
Defined.

(** C2 as stated fails: a vector of ten elements is accepted by a model
    whose shapes add up to nine. *)
Lemma update_grad_accepts_longer :
  length Examples.ten <> total_numel Examples.scenario_model /\
  snd (update_grad Examples.scenario_model Examples.ten) = None.
Proof. split; [vm_compute; lia | reflexivity]. Qed.





(** C10 (as amended).  For a model with at least one parameter, all of
    whose gradients exist, writing a vector of [total_numel m] elements
    with [update_grad] and reading the gradients back with
    [get_model_grad_vec] returns that vector. *)
Theorem inflate_flatten_grad (A : Type) (m : model A) (v : list A) :
  m <> [] ->
  grads_allocated m ->
  length v = total_numel m ->
  exists m',
    update_grad m v = (m', None) /\
    get_model_grad_vec m' = Ok v.
Proof.
  intros Hne Hg Hlen.
  destruct (@update_grad_from_enough A m v 0 Hg) as (m' & vs & E & Egv & Ecat & El & _);
    [lia|].
  exists m'. split; [exact E|].
  unfold get_model_grad_vec. rewrite Egv. simpl.
  destruct vs as [|x vs].
  - destruct m; [contradiction | discriminate El].
  - rewrite Ecat. simpl. now rewrite <- Hlen, firstn_all.
Qed.

Lemma inflate_flatten_grad_witness :
  Examples.scenario_model <> [] /\
  grads_allocated Examples.scenario_model /\
  length Examples.nine = total_numel Examples.scenario_model /\
  exists m',
    update_grad Examples.scenario_model Examples.nine = (m', None) /\
    get_model_grad_vec m' = Ok Examples.nine.
Proof.
  split; [discriminate|]. split; [exact scenario_model_grads|].
  split; [reflexivity|].
  apply inflate_flatten_grad;
    [discriminate | exact scenario_model_grads | reflexivity].
Defined.

(** C10 as stated fails on a module without parameters: the empty vector
    has the right length and is accepted, and reading the gradients back
    raises. *)
Lemma inflate_flatten_no_params :
  length (@nil ext) = total_numel Examples.no_params /\
  update_grad Examples.no_params [] = (Examples.no_params, None) /\
  get_model_grad_vec Examples.no_params = Err RuntimeError_cat.
Proof. repeat split. Qed.

End VectorizerClaims.

(** ** Floating-point scalars and rows *)

Section FloatFacts.

Lemma emul_one_r (a : ext) : emul a (Fin 1) = a.
Proof.
  destruct a as [x| | |]; simpl; try reflexivity.
  - now rewrite Rmult_1_r.
  - unfold inf_times. destruct (Rlt_dec 0 1); [reflexivity | lra].
  - unfold inf_times. destruct (Rlt_dec 0 1); [reflexivity | lra].
Qed.

Lemma eadd_zero_r (a : ext) : eadd a (Fin 0) = a.
Proof. destruct a; simpl; try reflexivity. now rewrite Rplus_0_r. Qed.

Lemma tsum_fin (l : list R) :
  tsum (map Fin l) = Fin (fold_right Rplus 0 l).
Proof.
  induction l as [|x l IH]; [reflexivity|].
  unfold tsum in *. simpl. now rewrite IH.
Qed.

Lemma sum_sq_nonneg (r : list R) :
  0 <= fold_right Rplus 0 (map (fun x => x * x) r).
Proof.
  induction r as [|x r IH]; simpl; [lra|]. nra.
Qed.

Lemma rnorm_nonneg (r : list R) : 0 <= rnorm r.
Proof. apply sqrt_pos. Qed.

Lemma row_norm_fin (r : list R) : row_norm (map Fin r) = Fin (rnorm r).
Proof.
  unfold row_norm, rnorm. rewrite map_map. simpl.
  rewrite <- (map_map (fun x => x * x) Fin), tsum_fin. simpl.
  destruct (Rlt_dec _ 0) as [H|_]; [|reflexivity].
  pose proof (sum_sq_nonneg r). lra.
Qed.

Lemma sum_sq_scale (s : R) (r : list R) :
  fold_right Rplus 0 (map (fun x => x * x) (map (fun x => x * s) r))
  = s * s * fold_right Rplus 0 (map (fun x => x * x) r).
Proof.
  induction r as [|x r IH]; simpl; [ring|]. rewrite IH. ring.
Qed.

Lemma rnorm_scale (s : R) (r : list R) :
  0 <= s -> rnorm (map (fun x => x * s) r) = s * rnorm r.
Proof.
  intros Hs. unfold rnorm. rewrite sum_sq_scale.
  rewrite sqrt_mult; [|nra|apply sum_sq_nonneg].
  now rewrite sqrt_square.
Qed.

(** A row of norm zero holds zeros only. *)
Lemma rnorm_zero (r : list R) : rnorm r = 0 -> Forall (fun x => x = 0) r.
Proof.
  unfold rnorm. intros H.
  apply sqrt_eq_0 in H; [|apply sum_sq_nonneg].
  induction r as [|x r IH]; [constructor|].
  simpl in H. pose proof (sum_sq_nonneg r).
  constructor; [nra|]. apply IH. nra.
Qed.

Lemma tsum_fin_inv (v : list ext) (s : R) :
  tsum v = Fin s -> exists l, v = map Fin l.
Proof.
  revert s. induction v as [|a v IH]; intros s H.
  - now exists [].
  - simpl in H. destruct a as [x| | |], (tsum v) as [y| | |] eqn:E;
      try discriminate H.
    destruct (IH y eq_refl) as [l ->]. now exists (x :: l).
Qed.

Lemma squares_fin_inv (r : list ext) (l : list R) :
  map (fun x => emul x x) r = map Fin l -> exists l', r = map Fin l'.
Proof.
  revert l. induction r as [|a r IH]; intros l H.
  - now exists [].
  - destruct l as [|y l]; [discriminate|]. simpl in H.
    injection H as Ha Hr. destruct (IH _ Hr) as [l' ->].
    destruct a as [x| | |]; try discriminate Ha. now exists (x :: l').
Qed.

(** A row of floats whose norm is the float zero holds finite zeros only. *)
Lemma row_norm_zero_inv (r : list ext) :
  row_norm r = Fin 0 -> r = map Fin (repeat 0 (length r)).
Proof.
  intros H. unfold row_norm in H.
  destruct (tsum (map (fun x => emul x x) r)) as [s| | |] eqn:E;
    simpl in H; try discriminate H.
  destruct (tsum_fin_inv _ E) as [l Hl].
  destruct (squares_fin_inv _ _ Hl) as [l' ->].
  pose proof (row_norm_fin l') as Hn. unfold row_norm in Hn.
  rewrite E in Hn. simpl in Hn. rewrite H in Hn.
  injection Hn as Hn. symmetry in Hn. apply rnorm_zero in Hn.
  rewrite length_map. f_equal.
  clear -Hn. induction Hn as [|x l Hx _ IH]; [reflexivity|].
  simpl. now rewrite Hx, <- IH.
Qed.

Lemma map_combine_map (X Y Z : Type) (g : X -> Y) (h : X * Y -> Z) (l : list X) :
  map h (combine l (map g l)) = map (fun x => h (x, g x)) l.
Proof. induction l as [|x l IH]; [reflexivity|]. simpl. now rewrite IH. Qed.

(** The functional branch of [clip_column], row by row. *)
Lemma scale_rows_clip_scale (clip : ext) (M : matrix) :
  scale_rows M (clip_scale clip M)
  = mkMatrix (ncols M)
      (map (fun r => map (fun x =>
              emul x (clamp_max (ediv clip (row_norm r)) (Fin 1))) r)
           (mrows M)).
Proof.
  unfold scale_rows, clip_scale, norm_dim1. f_equal.
  rewrite map_map. now rewrite map_combine_map.
Qed.

End FloatFacts.

(** ** PerExampleClipper *)

Section ClipperFacts.

(** Decide the comparisons that the float operations make. *)
Ltac cmp :=
  repeat match goal with
  | |- context [Rlt_dec ?a ?b] => destruct (Rlt_dec a b); try lra
  | |- context [Req_dec_T ?a ?b] => destruct (Req_dec_T a b); try lra
  end.

(** The scale factor of the functional branch for a finite positive bound
    and a finite norm. *)
Lemma clamp_scale_pos (c n : R) :
  0 < c -> 0 <= n ->
  clamp_max (ediv (Fin c) (Fin n)) (Fin 1)
  = Fin (if Rle_dec n c then 1 else c / n).
Proof.
  intros Hc Hn. unfold ediv.
  destruct (Req_dec_T n 0) as [->|Hn0].
  - unfold inf_times. cmp. unfold clamp_max. simpl.
    destruct (Rle_dec 0 c); [reflexivity | lra].
  - assert (Hpos : 0 < n) by lra.
    unfold clamp_max. simpl.
    destruct (Rlt_dec 1 (c / n)) as [H|H]; destruct (Rle_dec n c) as [L|L];
      try reflexivity.
    + exfalso. apply L. apply Rlt_le.
      apply (Rmult_lt_compat_r n) in H; [|exact Hpos].
      unfold Rdiv in H. rewrite Rmult_assoc, Rinv_l in H by lra. lra.
    + f_equal. assert (c / n <= 1) by lra.
      assert (1 <= c / n).
      { apply (Rmult_le_reg_r n); [exact Hpos|].
        unfold Rdiv. rewrite Rmult_assoc, Rinv_l by lra. lra. }
      lra.
Qed.

Lemma map_emul_fin (s : R) (r : list R) :
  map (fun x => emul x (Fin s)) (map Fin r) = map Fin (map (fun x => x * s) r).
Proof. now rewrite !map_map. Qed.

(** What the functional branch does to one finite row. *)
Lemma functional_row_clipped (c : R) (r : list R) :
  0 < c ->
  row_clipped c r
    (map (fun x => emul x (clamp_max (ediv (Fin c) (row_norm (map Fin r))) (Fin 1)))
         (map Fin r)).
Proof.
  intros Hc. pose proof (rnorm_nonneg r) as Hn.
  rewrite row_norm_fin, clamp_scale_pos by assumption.
  rewrite map_emul_fin.
  destruct (Rle_dec (rnorm r) c) as [L|L].
  - assert (E : map (fun x => x * 1) r = r).
    { rewrite <- (map_id r) at 2. apply map_ext. intros; ring. }
    rewrite E. repeat split.
    + exists (rnorm r). split; [apply row_norm_fin | exact L].
    + intros H. lra.
  - assert (Hpos : 0 < rnorm r) by lra.
    repeat split.
    + exists c. split; [|lra].
      rewrite row_norm_fin. f_equal.
      rewrite rnorm_scale.
      * unfold Rdiv. rewrite Rmult_assoc, Rinv_l by lra. ring.
      * apply Rlt_le. now apply Rdiv_lt_0_compat.
    + intros H. lra.
    + intros _. now rewrite map_map.
Qed.

(** The two kernels agree on a finite row, unless the bound is zero and
    so is the norm of the row. *)
Lemma row_variants_agree (c : R) (r : list R) :
  c <> 0 \/ rnorm r <> 0 ->
  map (fun x => emul x (clamp_max (ediv (Fin c) (row_norm (map Fin r))) (Fin 1)))
      (map Fin r)
  = clip_row_inplace (Fin c) (map Fin r).
Proof.
  intros Hcn. pose proof (rnorm_nonneg r) as Hn.
  unfold clip_row_inplace.
  change (esqrt (tsum (map (fun x => emul x x) (map Fin r))))
    with (row_norm (map Fin r)).
  rewrite row_norm_fin.
  destruct (Req_dec_T (rnorm r) 0) as [Hz|Hnz].
  - (* a row of zeros, and a bound that is not zero *)
    assert (Hc : c <> 0) by (destruct Hcn; [assumption | contradiction]).
    pose proof (rnorm_zero r Hz) as Hall. rewrite Hz.
    destruct (Rlt_dec 0 c) as [Hpos|Hneg].
    + rewrite clamp_scale_pos by lra.
      destruct (Rle_dec 0 c); [|lra].
      simpl. destruct (Rlt_dec c 0); [lra|].
      rewrite map_map. apply map_ext. intros x. simpl. now rewrite Rmult_1_r.
    + assert (Hlt : c < 0) by lra.
      simpl. destruct (Req_dec_T 0 0); [|lra].
      unfold inf_times. cmp. unfold clamp_max. simpl.
      rewrite !map_map. apply map_ext_in. intros x Hx.
      rewrite Forall_forall in Hall. rewrite (Hall x Hx). simpl.
      destruct (Req_dec_T (0 / c) 0) as [_|E]; [|exfalso; apply E; field; lra].
      unfold inf_times. cmp. reflexivity.
  - assert (Hpos : 0 < rnorm r) by lra.
    destruct (Rlt_dec 0 c) as [Hcp|Hcn'].
    + rewrite clamp_scale_pos by lra. simpl.
      destruct (Rle_dec (rnorm r) c) as [L|L];
        destruct (Rlt_dec c (rnorm r)) as [G|G]; try lra.
      * rewrite map_map. apply map_ext. intros x. simpl. now rewrite Rmult_1_r.
      * rewrite !map_map. apply map_ext. intros x. simpl.
        destruct (Req_dec_T c 0); [lra|].
        destruct (Req_dec_T (rnorm r / c) 0) as [E|_].
        -- exfalso. assert (0 < rnorm r / c) by (apply Rdiv_lt_0_compat; lra). lra.
        -- f_equal. field. lra.
    + simpl. destruct (Req_dec_T (rnorm r) 0); [lra|].
      unfold clamp_max. simpl.
      assert (Hle : c / rnorm r <= 0).
      { unfold Rdiv. assert (0 < / rnorm r) by (now apply Rinv_0_lt_compat). nra. }
      destruct (Rlt_dec 1 (c / rnorm r)); [lra|].
      destruct (Rlt_dec c (rnorm r)); [|lra].
      rewrite !map_map. apply map_ext. intros x. simpl.
      destruct (Req_dec_T c 0) as [->|Hc0].
      * unfold inf_times. cmp. f_equal. unfold Rdiv. ring.
      * destruct (Req_dec_T (rnorm r / c) 0) as [E|_].
        -- exfalso. assert (rnorm r / c < 0).
           { unfold Rdiv. assert (/ c < 0) by (apply Rinv_lt_0_compat; lra). nra. }
           lra.
        -- f_equal. field. lra.
Qed.

Lemma inplace_row_clipped (c : R) (r : list R) :
  0 < c -> row_clipped c r (clip_row_inplace (Fin c) (map Fin r)).
Proof.
  intros Hc. rewrite <- row_variants_agree by (left; lra).
  now apply functional_row_clipped.
Qed.

Lemma functional_rows (clip : ext) (M : matrix) :
  fst (clip_column M clip false)
  = Some (mkMatrix (ncols M)
      (map (fun r => map (fun x =>
              emul x (clamp_max (ediv clip (row_norm r)) (Fin 1))) r)
           (mrows M))).
Proof. unfold clip_column. simpl. now rewrite scale_rows_clip_scale. Qed.

Lemma functional_rows_clipped (c : R) (rows : list (list R)) :
  0 < c ->
  Forall2 (row_clipped c) rows
    (map (fun r => map (fun x =>
            emul x (clamp_max (ediv (Fin c) (row_norm r)) (Fin 1))) r)
         (map (map Fin) rows)).
Proof.
  intros Hc. induction rows as [|r rows IH]; simpl; constructor; [|exact IH].
  now apply functional_row_clipped.
Qed.

Lemma inplace_rows_clipped (c : R) (rows : list (list R)) :
  0 < c ->
  Forall2 (row_clipped c) rows
    (map (clip_row_inplace (Fin c)) (map (map Fin) rows)).
Proof.
  intros Hc. induction rows as [|r rows IH]; simpl; constructor; [|exact IH].
  now apply inplace_row_clipped.
Qed.

Lemma fin_row_finite (r : list R) : Forall (fun x => is_finite x = true) (map Fin r).
Proof. apply Forall_forall. intros x Hx. apply in_map_iff in Hx. now destruct Hx as (y & <- & _). Qed.

Lemma row_clipped_finite (c : R) (r : list R) (out : list ext) :
  row_clipped c r out -> Forall (fun x => is_finite x = true) out.
Proof.
  intros (_ & Hle & Hgt).
  destruct (Rle_dec (rnorm r) c) as [L|L].
  - rewrite (Hle L). apply fin_row_finite.
  - rewrite Hgt by lra. rewrite <- (map_map _ Fin). apply fin_row_finite.
Qed.

Lemma rows_clipped_finite (c : R) (rows : list (list R)) (outs : list (list ext)) :
  Forall2 (row_clipped c) rows outs ->
  Forall (Forall (fun x => is_finite x = true)) outs.
Proof.
  induction 1 as [|r out rows outs H _ IH]; constructor; [|exact IH].
  now apply (row_clipped_finite H).
Qed.

(** A matrix without infinities and NaNs is a matrix of reals. *)
Lemma all_finite_reals (M : matrix) :
  all_finite M -> exists rows, M = of_reals (ncols M) rows.
Proof.
  destruct M as [k rs]. unfold all_finite, of_reals. simpl. intros H.
  assert (E : exists rows, rs = map (map Fin) rows).
  { induction H as [|r rs Hr _ (rows & ->)]; [now exists []|].
    assert (Er : exists l, r = map Fin l).
    { clear -Hr. induction Hr as [|x r Hx _ (l & ->)]; [now exists []|].
      destruct x as [y| | |]; try discriminate Hx. now exists (y :: l). }
    destruct Er as [l ->]. now exists (l :: rows). }
  destruct E as [rows ->]. now exists rows.
Qed.

End ClipperFacts.

Section ClipperClaims.

(** C3.  For a matrix of finite values and a bound [c > 0], both kernels
    return rows that satisfy [row_clipped]: norm at most [c], the row
    itself when its norm is at most [c], the row scaled by [c / norm]
    otherwise. *)
Theorem clip_rows_bounded (k : nat) (rows : list (list R)) (c : R) :
  0 < c ->
  exists F,
    fst (clip_column (of_reals k rows) (Fin c) false) = Some F /\
    Forall2 (row_clipped c) rows (mrows F) /\
    Forall2 (row_clipped c) rows
      (mrows (snd (clip_column (of_reals k rows) (Fin c) true))).
Proof.
  intros Hc. eexists. split; [apply functional_rows|]. simpl. split.
  - now apply functional_rows_clipped.
  - now apply inplace_rows_clipped.
Qed.

Lemma clip_rows_bounded_witness :
  0 < 1 /\
  exists F,
    fst (clip_column (of_reals 2 Examples.embedding_rows) (Fin 1) false) = Some F /\
    Forall2 (row_clipped 1) Examples.embedding_rows (mrows F) /\
    Forall2 (row_clipped 1) Examples.embedding_rows
      (mrows (snd (clip_column (of_reals 2 Examples.embedding_rows) (Fin 1) true))).
Proof. split; [lra | apply clip_rows_bounded; lra]. Defined.

(** C4.  A row whose norm is zero comes out of both kernels as it went in,
    for every bound [c > 0] and whatever the other rows hold, and all its
    entries are finite; and when no entry of the matrix is an infinity or
    a NaN, no entry of either result is. *)
Theorem clip_zero_row (M : matrix) (c : R) (i : nat) (r : list ext) :
  0 < c ->
  nth_error (mrows M) i = Some r ->
  row_norm r = Fin 0 ->
  (exists F, fst (clip_column M (Fin c) false) = Some F /\
             nth_error (mrows F) i = Some r /\
             (all_finite M -> all_finite F)) /\
  nth_error (mrows (snd (clip_column M (Fin c) true))) i = Some r /\
  (all_finite M -> all_finite (snd (clip_column M (Fin c) true))) /\
  Forall (fun x => is_finite x = true) r.
Proof.
  intros Hc Hi Hz. split; [|split; [|split]].
  - eexists. split; [apply functional_rows|]. cbn [mrows]. split.
    + rewrite (map_nth_error _ _ _ Hi). f_equal.
      rewrite Hz. rewrite clamp_scale_pos by lra.
      destruct (Rle_dec 0 c); [|lra].
      rewrite <- (map_id r) at 2. apply map_ext. apply emul_one_r.
    + intros Hf. destruct (all_finite_reals Hf) as [rows ->].
      unfold all_finite. cbn [of_reals mrows ncols].
      exact (rows_clipped_finite (functional_rows_clipped rows Hc)).
  - simpl. rewrite (map_nth_error _ _ _ Hi). f_equal.
    unfold clip_row_inplace.
    change (esqrt (tsum (map (fun x => emul x x) r))) with (row_norm r).
    rewrite Hz. simpl. destruct (Rlt_dec c 0); [lra | reflexivity].
  - intros Hf. destruct (all_finite_reals Hf) as [rows ->].
    unfold all_finite. cbn [clip_column snd inplace_clipping of_reals mrows ncols].
    exact (rows_clipped_finite (inplace_rows_clipped rows Hc)).
  - rewrite (row_norm_zero_inv r Hz). apply fin_row_finite.
Qed.

Lemma rnorm_zeros2 : rnorm [0; 0] = 0.
Proof.
  unfold rnorm. simpl. replace (0 * 0 + (0 * 0 + 0)) with 0 by ring. apply sqrt_0.
Qed.

Lemma clip_zero_row_witness :
  0 < 1 /\
  nth_error (mrows (of_reals 2 Examples.embedding_rows)) 1 = Some [Fin 0; Fin 0] /\
  row_norm [Fin 0; Fin 0] = Fin 0 /\
  (exists F,
     fst (clip_column (of_reals 2 Examples.embedding_rows) (Fin 1) false) = Some F /\
     nth_error (mrows F) 1 = Some [Fin 0; Fin 0] /\
     (all_finite (of_reals 2 Examples.embedding_rows) -> all_finite F)) /\
  nth_error (mrows (snd (clip_column (of_reals 2 Examples.embedding_rows) (Fin 1) true))) 1
    = Some [Fin 0; Fin 0] /\
  (all_finite (of_reals 2 Examples.embedding_rows) ->
   all_finite (snd (clip_column (of_reals 2 Examples.embedding_rows) (Fin 1) true))) /\
  Forall (fun x => is_finite x = true) [Fin 0; Fin 0].
Proof.
  assert (Hz : row_norm [Fin 0; Fin 0] = Fin 0).
  { change [Fin 0; Fin 0] with (map Fin [0; 0]).
    rewrite row_norm_fin. f_equal. exact rnorm_zeros2. }
  split; [lra|]. split; [reflexivity|]. split; [exact Hz|].
  apply clip_zero_row; [lra | reflexivity | exact Hz].
Defined.

(** X21.  In exact arithmetic (the rounding of floats is not modelled): on
    a matrix of finite values and for a finite bound [c], the value the
    functional branch returns is the matrix the in-place kernel leaves
    behind, the functional branch leaves its input as it was and the
    in-place branch returns nothing -- provided [c] is not zero or no row
    has norm zero. *)
Theorem clip_variants_agree (k : nat) (rows : list (list R)) (c : R) :
  c <> 0 \/ Forall (fun r => rnorm r <> 0) rows ->
  fst (clip_column (of_reals k rows) (Fin c) false)
    = Some (snd (clip_column (of_reals k rows) (Fin c) true)) /\
  snd (clip_column (of_reals k rows) (Fin c) false) = of_reals k rows /\
  fst (clip_column (of_reals k rows) (Fin c) true) = None.
Proof.
  intros H. split; [|split; reflexivity].
  rewrite functional_rows. simpl. unfold inplace_clipping. simpl.
  f_equal. f_equal.
  induction rows as [|r rows IH]; [reflexivity|].
  simpl. f_equal.
  - apply row_variants_agree. destruct H as [H|H]; [now left|].
    right. now inversion H.
  - apply IH. destruct H as [H|H]; [now left|]. right. now inversion H.
Qed.

Lemma clip_variants_agree_witness :
  (0 <> 0 \/ Forall (fun r => rnorm r <> 0) [[1]]) /\
  (1 <> 0 \/ Forall (fun r => rnorm r <> 0) Examples.embedding_rows) /\
  fst (clip_column (of_reals 1 [[1]]) (Fin 0) false)
    = Some (snd (clip_column (of_reals 1 [[1]]) (Fin 0) true)) /\
  fst (clip_column (of_reals 2 Examples.embedding_rows) (Fin 1) false)
    = Some (snd (clip_column (of_reals 2 Examples.embedding_rows) (Fin 1) true)).
Proof.
  assert (H1 : 0 <> 0 \/ Forall (fun r => rnorm r <> 0) [[1]]).
  { right. constructor; [|constructor]. unfold rnorm. simpl.
    replace (1 * 1 + 0) with 1 by ring. rewrite sqrt_1. lra. }
  assert (H2 : 1 <> 0 \/ Forall (fun r => rnorm r <> 0) Examples.embedding_rows)
    by (left; lra).
  split; [exact H1|]. split; [exact H2|]. split.
  - exact (proj1 (clip_variants_agree 1 H1)).
  - exact (proj1 (clip_variants_agree 2 H2)).
Defined.

(** C9.  The two kernels differ for the bound zero on a row of norm zero:
    the functional branch, which has no test of the norm against the
    bound, divides zero by zero and returns NaN; the in-place kernel tests
    [col_norm > clip], does not enter its branch and leaves the zero. *)
Lemma clip_variants_differ :
  fst (clip_column (of_reals 1 Examples.zero_rows) (Fin 0) false)
    = Some (mkMatrix 1 [[NaN]]) /\
  snd (clip_column (of_reals 1 Examples.zero_rows) (Fin 0) true)
    = mkMatrix 1 [[Fin 0]].
Proof.
  assert (Hn : row_norm [Fin 0] = Fin 0).
  { change [Fin 0] with (map Fin [0]). rewrite row_norm_fin. f_equal.
    unfold rnorm. simpl. replace (0 * 0 + 0) with 0 by ring. apply sqrt_0. }
  split.
  - rewrite functional_rows.
    unfold Examples.zero_rows, of_reals. cbn [map mrows ncols].
    rewrite Hn. simpl.
    destruct (Req_dec_T 0 0) as [_|H]; [|lra].
    unfold inf_times.
    destruct (Rlt_dec 0 0) as [H|_]; [lra|]. reflexivity.
  - unfold clip_column, inplace_clipping, of_reals, Examples.zero_rows.
    cbn [snd map mrows ncols]. unfold clip_row_inplace.
    change (esqrt (tsum (map (fun x => emul x x) [Fin 0]))) with (row_norm [Fin 0]).
    rewrite Hn. simpl. destruct (Rlt_dec 0 0) as [H|_]; [lra|]. reflexivity.
Qed.

End ClipperClaims.

(** ** PrivacyNoiseInjector and the step *)

Section StepFacts.

Lemma length_vadd (a b : list ext) :
  length (vadd a b) = Nat.min (length a) (length b).
Proof. unfold vadd. now rewrite length_map, length_combine. Qed.

(** Adding a tensor of zeros changes nothing. *)
Lemma vadd_zeros (a : list ext) (zs : list ext) :
  length zs = length a ->
  Forall (fun z => z = Fin 0) zs ->
  vadd a zs = a.
Proof.
  revert zs. induction a as [|x a IH]; intros [|z zs] Hlen Hz;
    try discriminate Hlen; [reflexivity|].
  inversion Hz as [|? ? Hz0 Hzs]; subst.
  unfold vadd in *. simpl. rewrite eadd_zero_r. f_equal.
  apply IH; [now injection Hlen | exact Hzs].
Qed.

Lemma nrows_transpose (M : matrix) : nrows (transpose M) = ncols M.
Proof. unfold nrows, transpose. simpl. now rewrite length_map, length_seq. Qed.

Lemma matmul_ok (A B : matrix) :
  ncols A = nrows B ->
  matmul A B
  = Ok (mkMatrix (ncols B)
          (map (fun a => map (fun j => dot a (col j B)) (seq 0 (ncols B)))
               (mrows A))).
Proof. intros H. unfold matmul. now rewrite H, Nat.eqb_refl. Qed.

Lemma matmul_err (A B : matrix) :
  ncols A <> nrows B -> matmul A B = Err RuntimeError_matmul.
Proof.
  intros H. unfold matmul.
  destruct (Nat.eqb_spec (ncols A) (nrows B)); [contradiction | reflexivity].
Qed.

(** The embedding: one row per example, one column per basis row. *)
Lemma project_ok (basis batch : matrix) :
  ncols batch = ncols basis ->
  exists E,
    project basis batch = Ok E /\
    ncols E = nrows basis /\ nrows E = nrows batch.
Proof.
  intros H. unfold project. rewrite matmul_ok by now rewrite nrows_transpose.
  eexists. split; [reflexivity|]. split; [reflexivity|].
  unfold nrows. simpl. now rewrite length_map.
Qed.

(** Reconstructing a single row of [nrows basis] entries gives a single
    row of [ncols basis] entries. *)
Lemma reconstruct_row_ok (basis : matrix) (theta : list ext) :
  length theta = nrows basis ->
  exists N,
    reconstruct basis (view_row theta) = Ok N /\
    length (flatten N) = ncols basis.
Proof.
  intros H. unfold reconstruct. rewrite matmul_ok by exact H.
  eexists. split; [reflexivity|].
  unfold flatten. simpl. now rewrite app_nil_r, length_map, length_seq.
Qed.

Lemma length_mean_dim0 (M : matrix) : length (mean_dim0 M) = ncols M.
Proof. unfold mean_dim0. now rewrite length_map, length_seq. Qed.

Lemma length_sum_dim0 (M : matrix) : length (sum_dim0 M) = ncols M.
Proof. unfold sum_dim0. now rewrite length_map, length_seq. Qed.

Lemma cur_error_ok (basis grad embedding : matrix) :
  ncols embedding = nrows basis ->
  exists e, cur_error basis grad embedding = Ok e.
Proof.
  intros H. unfold cur_error.
  rewrite matmul_ok by (simpl; now rewrite length_mean_dim0).
  simpl. eexists. reflexivity.
Qed.

Lemma norms_stat_nonempty (v : list ext) :
  v <> [] -> exists s, norms_stat v = Ok s.
Proof.
  intros H. destruct v as [|x v]; [contradiction|].
  unfold norms_stat, tmax, tmedian, bind.
  destruct (existsb is_nan (x :: v)); eexists; reflexivity.
Qed.

Lemma norms_stat_empty : norms_stat [] = Err RuntimeError_empty_reduce.
Proof. reflexivity. Qed.

(** The standard deviation handed to [torch.normal]. *)
Lemma add_theta_noise_ok (theta : list ext) (sigma clip : ext) (n : nat)
    (gen : generator) :
  n <> 0%nat ->
  egeb (ediv (emul sigma clip) (Fin (INR n))) (Fin 0) = true ->
  add_theta_noise theta sigma clip n gen
  = (Ok (vadd theta
           (map (fun zi => eadd (Fin 0)
                   (emul (ediv (emul sigma clip) (Fin (INR n))) (Fin zi)))
                (fst (randn gen (length theta))))),
     snd (randn gen (length theta))).
Proof.
  intros Hn Hstd. unfold add_theta_noise, float_truediv.
  destruct (Nat.eqb_spec n 0); [contradiction|].
  unfold torch_normal. rewrite Hstd. reflexivity.
Qed.

Lemma add_theta_noise_bad_std (theta : list ext) (sigma clip : ext) (n : nat)
    (gen : generator) :
  n <> 0%nat ->
  egeb (ediv (emul sigma clip) (Fin (INR n))) (Fin 0) = false ->
  add_theta_noise theta sigma clip n gen = (Err RuntimeError_normal_std, gen).
Proof.
  intros Hn Hstd. unfold add_theta_noise, float_truediv.
  destruct (Nat.eqb_spec n 0); [contradiction|].
  unfold torch_normal. rewrite Hstd. reflexivity.
Qed.

Lemma INR_nonzero (n : nat) : n <> 0%nat -> INR n <> 0.
Proof. intros H. apply not_0_INR. exact H. Qed.

(** The standard deviation for finite [sigma] and [c]. *)
Lemma std_finite (sigma c : R) (n : nat) :
  n <> 0%nat ->
  ediv (emul (Fin sigma) (Fin c)) (Fin (INR n)) = Fin (sigma * c / INR n).
Proof.
  intros Hn. simpl.
  destruct (Req_dec_T (INR n) 0) as [E|_]; [|reflexivity].
  now apply INR_nonzero in E.
Qed.

Lemma egeb_fin_zero (x : R) : egeb (Fin x) (Fin 0) = true <-> 0 <= x.
Proof.
  simpl. destruct (Rlt_dec x 0); simpl; split; intros H;
    try lra; try reflexivity; try discriminate H.
Qed.

Lemma div_nonneg (x : R) (n : nat) : n <> 0%nat -> (0 <= x / INR n <-> 0 <= x).
Proof.
  intros Hn. assert (Hpos : 0 < INR n) by (apply lt_0_INR; lia).
  assert (Hinv : 0 < / INR n) by now apply Rinv_0_lt_compat.
  unfold Rdiv. split; intros H; [|nra].
  destruct (Rle_dec 0 x); [assumption|]. exfalso. nra.
Qed.

End StepFacts.

Section StepRuns.

Variable opt_state : Type.
Variable optimizer_step :
  opt_state -> Vectorizer.model ext -> opt_state * Vectorizer.model ext.

Implicit Types (G : globals) (model : Vectorizer.model ext) (grad : matrix).

(** A batch whose width is not that of the basis is rejected by the first
    product, and nothing has changed. *)
Lemma step_bad_width G model (opt : opt_state) grad (sigma clip : ext) :
  ncols grad <> ncols (P G) ->
  P_SGD_DP optimizer_step G model opt grad sigma clip
  = (Err RuntimeError_matmul, mkState model opt G).
Proof.
  intros H. unfold P_SGD_DP. cbv zeta.
  rewrite matmul_err by now rewrite nrows_transpose.
  reflexivity.
Qed.

(** An empty batch: the first [norms_stat] raises, and nothing has
    changed. *)
Lemma step_empty_batch G model (opt : opt_state) grad (sigma clip : ext) :
  ncols grad = ncols (P G) ->
  nrows grad = 0%nat ->
  P_SGD_DP optimizer_step G model opt grad sigma clip
  = (Err RuntimeError_empty_reduce, mkState model opt G).
Proof.
  intros Hw Hn. unfold P_SGD_DP. cbv zeta.
  destruct (project_ok (P G) grad Hw) as (E & HE & HcE & HrE).
  change (matmul grad (transpose (P G))) with (project (P G) grad).
  rewrite HE.
  destruct (cur_error_ok (P G) grad E HcE) as [e He]. rewrite He.
  assert (HnE : norm_dim1 E = []).
  { unfold norm_dim1. rewrite Hn in HrE. unfold nrows in HrE.
    destruct (mrows E); [reflexivity | discriminate HrE]. }
  rewrite HnE, norms_stat_empty. reflexivity.
Qed.

(** The stages of a step up to the noise: they succeed on a non-empty
    batch of the right width. *)
Lemma step_prefix G grad (clip : ext) :
  ncols grad = ncols (P G) ->
  nrows grad <> 0%nat ->
  exists E clipped e s1 s2,
    project (P G) grad = Ok E /\
    nrows E = nrows grad /\
    cur_error (P G) grad E = Ok e /\
    norms_stat (norm_dim1 E) = Ok s1 /\
    fst (clip_column E clip false) = Some clipped /\
    norms_stat (norm_dim1 clipped) = Ok s2 /\
    length (sum_dim0 clipped) = nrows (P G).
Proof.
  intros Hw Hn.
  destruct (project_ok (P G) grad Hw) as (E & HE & HcE & HrE).
  destruct (cur_error_ok (P G) grad E HcE) as [e He].
  assert (Hrows : mrows E <> []).
  { intros H0. apply Hn. rewrite <- HrE. unfold nrows. now rewrite H0. }
  destruct (norms_stat_nonempty (v := norm_dim1 E)) as [s1 Hs1].
  { unfold norm_dim1. destruct (mrows E); [contradiction | discriminate]. }
  pose proof (functional_rows clip E) as Hc.
  destruct (norms_stat_nonempty
              (v := norm_dim1 (mkMatrix (ncols E)
                 (map (fun r => map (fun x =>
                    emul x (clamp_max (ediv clip (row_norm r)) (Fin 1))) r)
                    (mrows E))))) as [s2 Hs2].
  { unfold norm_dim1. simpl. destruct (mrows E); [contradiction | discriminate]. }
  eexists E, _, e, s1, s2.
  split; [exact HE|]. split; [exact HrE|]. split; [exact He|].
  split; [exact Hs1|]. split; [exact Hc|]. split; [exact Hs2|].
  rewrite length_sum_dim0. exact HcE.
Qed.

(** A step on a non-empty batch of the right width, for a model whose
    gradients exist and hold at most as many elements as the basis has
    columns, when the standard deviation passes [torch.normal]'s check:
    nothing raises, and this is what the step computes. *)
Lemma step_runs G model (opt : opt_state) grad (sigma clip : ext) :
  ncols grad = ncols (P G) ->
  nrows grad <> 0%nat ->
  Vectorizer.grads_allocated model ->
  (Vectorizer.total_numel model <= ncols (P G))%nat ->
  egeb (ediv (emul sigma clip) (Fin (INR (nrows grad)))) (Fin 0) = true ->
  exists E clipped noisy model' stats,
    project (P G) grad = Ok E /\
    fst (clip_column E clip false) = Some clipped /\
    reconstruct (P G)
      (view_row
         (vadd (map (fun s => ediv s (Fin (INR (nrows grad)))) (sum_dim0 clipped))
               (map (fun zi => eadd (Fin 0)
                       (emul (ediv (emul sigma clip) (Fin (INR (nrows grad))))
                             (Fin zi)))
                    (fst (randn (default_generator G) (nrows (P G)))))))
      = Ok noisy /\
    Vectorizer.update_grad model (flatten noisy) = (model', None) /\
    P_SGD_DP optimizer_step G model opt grad sigma clip
    = (Ok stats,
       mkState (snd (optimizer_step opt model')) (fst (optimizer_step opt model'))
         (mkGlobals (P G) (snd (randn (default_generator G) (nrows (P G)))))).
Proof.
  intros Hw Hn Hg Htot Hstd.
  destruct (step_prefix G grad clip Hw Hn)
    as (E & clipped & e & s1 & s2 & HE & HrE & He & Hs1 & Hc & Hs2 & Hlen).
  set (theta := map (fun s => ediv s (Fin (INR (nrows grad)))) (sum_dim0 clipped)).
  assert (Hth : length theta = nrows (P G))
    by (unfold theta; now rewrite length_map).
  set (noise := map (fun zi => eadd (Fin 0)
                 (emul (ediv (emul sigma clip) (Fin (INR (nrows grad)))) (Fin zi)))
                 (fst (randn (default_generator G) (nrows (P G))))).
  assert (Hno : length noise = nrows (P G)).
  { unfold noise, randn. simpl. now rewrite !length_map, length_seq. }
  destruct (reconstruct_row_ok (P G) (vadd theta noise)) as (N & HN & HlN).
  { rewrite length_vadd, Hth, Hno. apply Nat.min_id. }
  destruct (@update_grad_from_enough ext model (flatten N) 0 Hg)
    as (model' & vs & Hu & _); [simpl; lia|].
  exists E, clipped, N, model', (s1, s2).
  split; [exact HE|]. split; [exact Hc|]. split; [exact HN|].
  split; [exact Hu|].
  unfold P_SGD_DP. cbv zeta.
  change (matmul grad (transpose (P G))) with (project (P G) grad).
  rewrite HE, He, Hs1, Hc, Hs2, HrE.
  fold theta.
  rewrite add_theta_noise_ok by assumption.
  rewrite Hth. fold noise.
  change (matmul (view_row (vadd theta noise)) (P G))
    with (reconstruct (P G) (view_row (vadd theta noise))).
  rewrite HN.
  change (Vectorizer.update_grad model (flatten N))
    with (Vectorizer.update_grad_from model (flatten N) 0).
  rewrite Hu.
  destruct (optimizer_step opt model') as [o m]. reflexivity.
Qed.

(** The same step when the standard deviation fails the check of
    [torch.normal]: the exception leaves model, optimizer and generator as
    they were. *)
Lemma step_bad_std G model (opt : opt_state) grad (sigma clip : ext) :
  ncols grad = ncols (P G) ->
  nrows grad <> 0%nat ->
  egeb (ediv (emul sigma clip) (Fin (INR (nrows grad)))) (Fin 0) = false ->
  P_SGD_DP optimizer_step G model opt grad sigma clip
  = (Err RuntimeError_normal_std, mkState model opt G).
Proof.
  intros Hw Hn Hstd.
  destruct (step_prefix G grad clip Hw Hn)
    as (E & clipped & e & s1 & s2 & HE & HrE & He & Hs1 & Hc & Hs2 & Hlen).
  unfold P_SGD_DP. cbv zeta.
  change (matmul grad (transpose (P G))) with (project (P G) grad).
  rewrite HE, He, Hs1, Hc, Hs2, HrE.
  rewrite add_theta_noise_bad_std by assumption.
  destruct G. reflexivity.
Qed.

End StepRuns.

Section StepClaims.

Import Vectorizer.

Lemma model1_grads : grads_allocated Examples.model1.
Proof. repeat constructor. simpl. eexists; split; reflexivity. Defined.



(** C1 (as amended).  For a batch of the width of the basis and a model
    whose gradients exist and fit: an empty batch makes the step raise
    (the reduction over no norms) and leaves everything as it was; on a
    non-empty batch no clip bound is rejected as such: the step completes
    when [sigma * c >= 0], and otherwise raises in [torch.normal], after
    the clipping, leaving everything as it was. *)
Theorem step_failure_policy (opt_state : Type)
    (optimizer_step : opt_state -> model ext -> opt_state * model ext)
    (G : globals) (m : model ext) (opt : opt_state) (grad : matrix)
    (sigma c : R) :
  ncols grad = ncols (P G) ->
  grads_allocated m ->
  (total_numel m <= ncols (P G))%nat ->
  (nrows grad = 0%nat ->
     P_SGD_DP optimizer_step G m opt grad (Fin sigma) (Fin c)
     = (Err RuntimeError_empty_reduce, mkState m opt G)) /\
  (nrows grad <> 0%nat -> 0 <= sigma * c ->
     exists stats out,
       P_SGD_DP optimizer_step G m opt grad (Fin sigma) (Fin c)
       = (Ok stats, out)) /\
  (nrows grad <> 0%nat -> sigma * c < 0 ->
     P_SGD_DP optimizer_step G m opt grad (Fin sigma) (Fin c)
     = (Err RuntimeError_normal_std, mkState m opt G)).
Proof.
  intros Hw Hg Htot. split; [|split].
  - intros Hn. now apply step_empty_batch.
  - intros Hn Hs.
    destruct (@step_runs _ optimizer_step G m opt grad (Fin sigma) (Fin c)
                Hw Hn Hg Htot)
      as (E & cl & N & m' & stats & _ & _ & _ & _ & Hrun).
    { rewrite std_finite by exact Hn. apply egeb_fin_zero.
      now apply div_nonneg. }
    eexists _, _. exact Hrun.
  - intros Hn Hs. apply step_bad_std; [exact Hw | exact Hn |].
    rewrite std_finite by exact Hn.
    destruct (egeb (Fin (sigma * c / INR (nrows grad))) (Fin 0)) eqn:E;
      [|reflexivity].
    apply egeb_fin_zero in E. apply div_nonneg in E; [lra | exact Hn].
Qed.

Lemma step_failure_policy_witness :
  ncols Examples.empty_batch = ncols Examples.basis1 /\
  ncols Examples.batch1 = ncols Examples.basis1 /\
  grads_allocated Examples.model1 /\
  (total_numel Examples.model1 <= ncols Examples.basis1)%nat /\
  P_SGD_DP Examples.idle_step (mkGlobals Examples.basis1 Examples.gen_ones)
    Examples.model1 tt Examples.empty_batch (Fin 1) (Fin 1)
  = (Err RuntimeError_empty_reduce,
     mkState Examples.model1 tt (mkGlobals Examples.basis1 Examples.gen_ones)) /\
  (exists stats out,
     P_SGD_DP Examples.idle_step (mkGlobals Examples.basis1 Examples.gen_ones)
       Examples.model1 tt Examples.batch1 (Fin 0) (Fin (-1))
     = (Ok stats, out)) /\
  P_SGD_DP Examples.idle_step (mkGlobals Examples.basis1 Examples.gen_ones)
    Examples.model1 tt Examples.batch1 (Fin 1) (Fin (-1))
  = (Err RuntimeError_normal_std,
     mkState Examples.model1 tt (mkGlobals Examples.basis1 Examples.gen_ones)).
Proof.
  pose (G := mkGlobals Examples.basis1 Examples.gen_ones).
  assert (Ht : (total_numel Examples.model1 <= ncols (P G))%nat)
    by (vm_compute; lia).
  split; [reflexivity|]. split; [reflexivity|]. split; [exact model1_grads|].
  split; [exact Ht|].
  split; [|split].
  - apply (proj1 (@step_failure_policy _ Examples.idle_step G Examples.model1
                    tt Examples.empty_batch 1 1 eq_refl model1_grads Ht)).
    reflexivity.
  - apply (proj1 (proj2 (@step_failure_policy _ Examples.idle_step G
                    Examples.model1 tt Examples.batch1 0 (-1)
                    eq_refl model1_grads Ht))).
    + discriminate.
    + lra.
  - apply (proj2 (proj2 (@step_failure_policy _ Examples.idle_step G
                    Examples.model1 tt Examples.batch1 1 (-1)
                    eq_refl model1_grads Ht))).
    + discriminate.
    + lra.
Defined.

(** C1 as stated fails: with the clip bound zero the step raises nothing
    and completes. *)
Lemma step_accepts_zero_clip :
  0 <= 0 /\
  exists stats out,
    P_SGD_DP Examples.idle_step (mkGlobals Examples.basis1 Examples.gen_ones)
      Examples.model1 tt Examples.batch1 (Fin 1) (Fin 0)
    = (Ok stats, out).
Proof.
  split; [lra|].
  destruct (@step_runs _ Examples.idle_step
              (mkGlobals Examples.basis1 Examples.gen_ones) Examples.model1 tt
              Examples.batch1 (Fin 1) (Fin 0) eq_refl)
    as (E & cl & N & m' & stats & _ & _ & _ & _ & Hrun).
  - discriminate.
  - exact model1_grads.
  - vm_compute. lia.
  - rewrite std_finite by discriminate. apply egeb_fin_zero.
    apply div_nonneg; [discriminate | lra].
  - eexists _, _. exact Hrun.
Qed.

(** C6 (as amended).  With the noise multiplier zero and a finite clip
    bound, lines 398-400 return the aggregate they were given, on the path
    every multiplier takes: the variates are drawn all the same. *)
Theorem zero_sigma_unchanged (theta : list ext) (c : R) (n : nat)
    (gen : generator) :
  n <> 0%nat ->
  add_theta_noise theta (Fin 0) (Fin c) n gen
  = (Ok theta, snd (randn gen (length theta))).
Proof.
  intros Hn.
  rewrite add_theta_noise_ok; [|exact Hn|].
  - f_equal. f_equal. apply vadd_zeros.
    + unfold randn. simpl. now rewrite !length_map, length_seq.
    + rewrite std_finite by exact Hn. apply Forall_forall.
      intros x Hx. apply in_map_iff in Hx. destruct Hx as (z & <- & _).
      simpl. f_equal. unfold Rdiv. ring.
  - rewrite std_finite by exact Hn. apply egeb_fin_zero.
    apply div_nonneg; [exact Hn | lra].
Qed.

Lemma zero_sigma_unchanged_witness :
  4%nat <> 0%nat /\
  add_theta_noise [Fin 1; Fin 2] (Fin 0) (Fin 5) 4 Examples.gen_ones
  = (Ok [Fin 1; Fin 2], snd (randn Examples.gen_ones 2)).
Proof.
  split; [discriminate|].
  apply (@zero_sigma_unchanged [Fin 1; Fin 2] 5 4 Examples.gen_ones).
  discriminate.
Defined.

(** C6 as stated fails for the clip bound [+inf], which [--clip inf]
    gives: the standard deviation [0 * inf / n] is NaN, [torch.normal]
    refuses it, and the aggregate is not returned. *)
Lemma zero_sigma_infinite_clip :
  add_theta_noise [Fin 1; Fin 2] (Fin 0) PInf 4 Examples.gen_ones
  = (Err RuntimeError_normal_std, Examples.gen_ones).
Proof.
  apply add_theta_noise_bad_std; [discriminate|].
  cbn [emul]. unfold inf_times.
  destruct (Rlt_dec 0 0) as [H|_]; [lra|]. reflexivity.
Qed.




End StepClaims.

(** ** SubspaceProjector *)

Section ProjectorFacts.

Lemma map_fin_inj (a b : list R) : map Fin a = map Fin b -> a = b.
Proof.
  revert b. induction a as [|x a IH]; intros [|y b] H; try discriminate H;
    [reflexivity|].
  simpl in H. injection H as Hx Hr. subst. f_equal. now apply IH.
Qed.

Lemma dot_fin (a b : list R) : dot (map Fin a) (map Fin b) = Fin (rdot a b).
Proof.
  unfold dot, rdot. rewrite <- tsum_fin. f_equal.
  revert b. induction a as [|x a IH]; intros [|y b]; try reflexivity.
  simpl. f_equal. apply IH.
Qed.

Lemma col_fin (d j : nat) (rows : list (list R)) :
  col j (of_reals d rows) = map Fin (rcol j rows).
Proof.
  unfold col, rcol, of_reals. simpl. rewrite !map_map.
  apply map_ext. intros r. apply (map_nth Fin).
Qed.

Lemma matmul_fin (ka d : nat) (A B : list (list R)) :
  length B = ka ->
  matmul (of_reals ka A) (of_reals d B)
  = Ok (of_reals d
          (map (fun a => map (fun j => rdot a (rcol j B)) (seq 0 d)) A)).
Proof.
  intros H. rewrite matmul_ok.
  - f_equal. unfold of_reals. simpl. f_equal. rewrite !map_map.
    apply map_ext. intros a. rewrite map_map. apply map_ext. intros j.
    change (mkMatrix d (map (map Fin) B)) with (of_reals d B).
    now rewrite col_fin, dot_fin.
  - unfold nrows, of_reals. simpl. now rewrite length_map.
Qed.

Lemma transpose_fin (d : nat) (rows : list (list R)) :
  transpose (of_reals d rows)
  = of_reals (length rows) (map (fun j => rcol j rows) (seq 0 d)).
Proof.
  unfold transpose, nrows. cbn [of_reals mrows ncols]. rewrite length_map.
  unfold of_reals. f_equal. rewrite map_map. apply map_ext. intros j.
  change (mkMatrix d (map (map Fin) rows)) with (of_reals d rows).
  apply col_fin.
Qed.

Lemma map_nth_seq (X Y : Type) (f : X -> Y) (l : list X) (d0 : X) :
  map (fun i => f (nth i l d0)) (seq 0 (length l)) = map f l.
Proof.
  induction l as [|x l IH]; [reflexivity|].
  simpl. f_equal. rewrite <- seq_shift, map_map. exact IH.
Qed.

Lemma nth_rcol (i j : nat) (rows : list (list R)) :
  nth i (rcol j rows) 0 = nth j (nth i rows []) 0.
Proof.
  unfold rcol. revert i. induction rows as [|r rows IH]; intros [|i]; simpl;
    try reflexivity.
  - now destruct j.
  - now destruct j.
  - apply IH.
Qed.

(** A row of the transposed basis is a column of it, and back. *)
Lemma rcol_transposed (d i : nat) (rows : list (list R)) :
  length (nth i rows []) = d ->
  rcol i (map (fun j => rcol j rows) (seq 0 d)) = nth i rows [].
Proof.
  intros H. unfold rcol at 1. rewrite map_map.
  rewrite (map_ext _ (fun j => nth j (nth i rows []) 0)) by (intros; apply nth_rcol).
  rewrite <- H. rewrite (map_nth_seq (fun x => x)). apply map_id.
Qed.

Lemma rows_nth_length (d i : nat) (rows : list (list R)) :
  Forall (fun r => length r = d) rows -> (i < length rows)%nat ->
  length (nth i rows []) = d.
Proof.
  intros H Hi. rewrite Forall_forall in H. apply H. now apply nth_In.
Qed.

(** Projecting one row: its inner products with the rows of the basis. *)
Lemma project_row (d : nat) (rows : list (list R)) (v : list R) :
  Forall (fun r => length r = d) rows ->
  project (of_reals d rows) (of_reals d [v])
  = Ok (of_reals (length rows) [map (rdot v) rows]).
Proof.
  intros Hwf. unfold project. rewrite transpose_fin.
  rewrite matmul_fin by now rewrite length_map, length_seq.
  f_equal. unfold of_reals. f_equal. simpl. f_equal. f_equal.
  rewrite <- (map_nth_seq (rdot v) rows []).
  apply map_ext_in. intros i Hi. apply in_seq in Hi. f_equal.
  apply rcol_transposed. apply rows_nth_length; [exact Hwf | lia].
Qed.

Lemma rdot_nil_l (b : list R) : rdot [] b = 0.
Proof. reflexivity. Qed.

Lemma rdot_cons (x y : R) (a b : list R) :
  rdot (x :: a) (y :: b) = x * y + rdot a b.
Proof. reflexivity. Qed.

Lemma lincomb_length (d : nat) (a : list R) (rows : list (list R)) :
  Forall (fun r => length r = d) rows ->
  length (lincomb d a rows) = d.
Proof.
  intros H. revert a. induction H as [|r rows Hr _ IH]; intros [|x a]; simpl;
    try apply repeat_length.
  rewrite length_map, length_combine, IH, Hr. apply Nat.min_id.
Qed.

Lemma map_seq_combine (f : R -> R -> R) (g : nat -> R) (r : list R) (s : nat) :
  map (fun j => f (nth (j - s) r 0) (g j)) (seq s (length r))
  = map (fun pq => f (fst pq) (snd pq)) (combine r (map g (seq s (length r)))).
Proof.
  revert s. induction r as [|y r IH]; intros s; [reflexivity|].
  simpl. rewrite Nat.sub_diag. f_equal.
  rewrite <- IH. apply map_ext_in. intros j Hj. apply in_seq in Hj.
  replace (j - s)%nat with (S (j - S s)) by lia. reflexivity.
Qed.

Lemma map_const_zero (d s : nat) : map (fun _ : nat => 0) (seq s d) = repeat 0 d.
Proof.
  revert s. induction d as [|d IH]; intros s; [reflexivity|].
  simpl. f_equal. apply IH.
Qed.

(** The row that the product with the basis returns is the combination of
    the rows of the basis. *)
Lemma columns_lincomb (d : nat) (w : list R) (rows : list (list R)) :
  Forall (fun r => length r = d) rows ->
  length w = length rows ->
  map (fun j => rdot w (rcol j rows)) (seq 0 d) = lincomb d w rows.
Proof.
  intros H. revert w. induction H as [|r rows Hr Hrows IH]; intros [|x w] Hlen;
    try discriminate Hlen.
  - apply map_const_zero.
  - injection Hlen as Hlen. cbn [lincomb]. rewrite <- (IH w Hlen). subst d.
    rewrite <- (map_seq_combine (fun p q => x * p + q)).
    apply map_ext. intros j. rewrite Nat.sub_0_r. reflexivity.
Qed.

Lemma view_row_fin (w : list R) :
  view_row (map Fin w) = of_reals (length w) [w].
Proof. unfold view_row, of_reals. now rewrite length_map. Qed.

(** Reconstructing one row of coefficients. *)
Lemma reconstruct_row (d : nat) (rows : list (list R)) (w : list R) :
  Forall (fun r => length r = d) rows ->
  length w = length rows ->
  reconstruct (of_reals d rows) (view_row (map Fin w))
  = Ok (of_reals d [lincomb d w rows]).
Proof.
  intros Hwf Hlen. unfold reconstruct. rewrite view_row_fin.
  rewrite matmul_fin by (symmetry; exact Hlen).
  cbn [map]. now rewrite columns_lincomb.
Qed.

Lemma rdot_nil_r (a : list R) : rdot a [] = 0.
Proof. now destruct a. Qed.

Lemma rdot_zeros_l (d : nat) (q : list R) : rdot (repeat 0 d) q = 0.
Proof.
  revert q. induction d as [|d IH]; intros [|y q]; try reflexivity.
  simpl repeat. rewrite rdot_cons, IH. ring.
Qed.

Lemma rdot_zeros_r (w : list R) (d : nat) : rdot w (repeat 0 d) = 0.
Proof.
  revert d. induction w as [|x w IH]; intros [|d]; try reflexivity.
  simpl repeat. rewrite rdot_cons, IH. ring.
Qed.

Lemma rdot_axpy (x : R) (r acc q : list R) :
  length r = length acc ->
  rdot (map (fun pq => x * fst pq + snd pq) (combine r acc)) q
  = x * rdot r q + rdot acc q.
Proof.
  revert acc q. induction r as [|y r IH]; intros [|z acc] q Hlen;
    try discriminate Hlen.
  - cbn [combine map]. rewrite !rdot_nil_l. ring.
  - destruct q as [|t q].
    + rewrite !rdot_nil_r. ring.
    + cbn [combine map fst snd]. rewrite !rdot_cons, IH by now injection Hlen.
      ring.
Qed.

(** The inner product with a combination of rows. *)
Lemma rdot_lincomb (d : nat) (w : list R) (rows : list (list R)) (q : list R) :
  Forall (fun r => length r = d) rows ->
  rdot (lincomb d w rows) q = rdot w (map (fun p => rdot p q) rows).
Proof.
  intros H. revert w. induction H as [|r rows Hr Hrows IH]; intros [|x w];
    cbn [lincomb map]; rewrite ?rdot_zeros_l, ?rdot_nil_l, ?rdot_nil_r;
    try reflexivity.
  rewrite rdot_axpy by (now rewrite lincomb_length).
  now rewrite rdot_cons, IH.
Qed.

(** The inner product with a unit vector picks a coordinate. *)
Lemma rdot_unit (w : list R) (j : nat) :
  rdot w (map (fun i => if (i =? j)%nat then 1 else 0) (seq 0 (length w)))
  = nth j w 0.
Proof.
  revert j. induction w as [|x w IH]; intros j.
  - now destruct j.
  - cbn [length seq map]. rewrite <- seq_shift, map_map, rdot_cons.
    destruct j as [|j].
    + cbn [Nat.eqb nth]. rewrite map_const_zero, rdot_zeros_r. ring.
    + cbn [Nat.eqb nth]. rewrite IH. ring.
Qed.

(** Projecting a combination of orthonormal rows returns its
    coefficients. *)
Lemma project_lincomb (d : nat) (rows : list (list R)) (w : list R) :
  Forall (fun r => length r = d) rows ->
  orthonormal_rows rows ->
  length w = length rows ->
  map (rdot (lincomb d w rows)) rows = w.
Proof.
  intros Hwf Hon Hlen.
  rewrite <- (map_nth_seq (rdot (lincomb d w rows)) rows []).
  transitivity (map (fun j => nth j w 0) (seq 0 (length w)));
    [|rewrite (map_nth_seq (fun x => x) w 0); apply map_id].
  rewrite Hlen. apply map_ext_in. intros j Hj. apply in_seq in Hj.
  rewrite rdot_lincomb by exact Hwf.
  rewrite <- (map_nth_seq (fun p => rdot p (nth j rows [])) rows []).
  rewrite (map_ext_in _ (fun i => if (i =? j)%nat then 1 else 0)).
  - rewrite <- Hlen. apply rdot_unit.
  - intros i Hi. apply in_seq in Hi. apply Hon; lia.
Qed.

End ProjectorFacts.

Section ProjectorClaims.

(** C7.  For a basis of finite values with orthonormal rows of length
    [d]: reconstructing any row [w] of coefficients and projecting the
    result returns [w]; and projecting a row [v] and reconstructing the
    result returns [v] exactly when [v] lies in the span of the rows. *)
Theorem project_reconstruct_roundtrip (d : nat) (rows : list (list R)) :
  Forall (fun r => length r = d) rows ->
  orthonormal_rows rows ->
  (forall w, length w = length rows ->
     exists v,
       reconstruct (of_reals d rows) (view_row (map Fin w)) = Ok (of_reals d [v]) /\
       project (of_reals d rows) (of_reals d [v])
         = Ok (of_reals (length rows) [w])) /\
  (forall v,
     (exists e,
        project (of_reals d rows) (of_reals d [v])
          = Ok (of_reals (length rows) [e]) /\
        reconstruct (of_reals d rows) (view_row (map Fin e)) = Ok (of_reals d [v]))
     <-> in_row_span d rows v).
Proof.
  intros Hwf Hon. split.
  - intros w Hlen. exists (lincomb d w rows).
    split; [now apply reconstruct_row|].
    rewrite project_row by exact Hwf.
    now rewrite project_lincomb.
  - intros v. split.
    + intros (e & Hp & Hr).
      rewrite project_row in Hp by exact Hwf.
      injection Hp as Hp. apply map_fin_inj in Hp. subst e.
      assert (Hlen : length (map (rdot v) rows) = length rows)
        by apply length_map.
      rewrite reconstruct_row in Hr by assumption.
      injection Hr as Hr. apply map_fin_inj in Hr.
      exists (map (rdot v) rows). split; [exact Hlen | now symmetry].
    + intros (a & Hlen & ->). exists a.
      rewrite project_row by exact Hwf.
      rewrite project_lincomb by assumption.
      split; [reflexivity | now apply reconstruct_row].
Qed.

Lemma basis_rows_wf : Forall (fun r => length r = 2%nat) Examples.basis_rows.
Proof. repeat constructor. Defined.

Lemma basis_rows_orthonormal : orthonormal_rows Examples.basis_rows.
Proof.
  intros i j Hi Hj. simpl in Hi, Hj.
  assert (i = 0%nat) by lia. assert (j = 0%nat) by lia. subst.
  unfold rdot. simpl. ring.
Defined.

Lemma project_reconstruct_roundtrip_witness :
  Forall (fun r => length r = 2%nat) Examples.basis_rows /\
  orthonormal_rows Examples.basis_rows /\
  (exists v,
     reconstruct (of_reals 2 Examples.basis_rows) (view_row (map Fin [5]))
       = Ok (of_reals 2 [v]) /\
     project (of_reals 2 Examples.basis_rows) (of_reals 2 [v])
       = Ok (of_reals 1 [[5]])) /\
  ((exists e,
      project (of_reals 2 Examples.basis_rows) (of_reals 2 [[0; 1]])
        = Ok (of_reals 1 [e]) /\
      reconstruct (of_reals 2 Examples.basis_rows) (view_row (map Fin e))
        = Ok (of_reals 2 [[0; 1]]))
   <-> in_row_span 2 Examples.basis_rows [0; 1]).
Proof.
  split; [exact basis_rows_wf|]. split; [exact basis_rows_orthonormal|].
  destruct (project_reconstruct_roundtrip basis_rows_wf basis_rows_orthonormal)
    as [H1 H2].
  split.
  - apply (H1 [5]). reflexivity.
  - apply (H2 [0; 1]).
Defined.

End ProjectorClaims.

(** ** More on the ParameterVectorizer *)

Section VectorizerMore.

Import Vectorizer.
Close Scope R_scope.
Variable A : Type.
Implicit Types (m : model A) (v w : list A) (p : param A).

Lemma update_grad_from_frame m v idx :
  map (@pname A) (fst (update_grad_from m v idx)) = map (@pname A) m /\
  map (@data A) (fst (update_grad_from m v idx)) = map (@data A) m /\
  map (@grad_shape A) (fst (update_grad_from m v idx)) = map (@grad_shape A) m.
Proof.
  revert idx. induction m as [|p m IH]; intros idx; [now repeat split|].
  simpl. destruct (grad p) as [g|] eqn:Eg; [|now repeat split].
  unfold reshape.
  destruct (length (slice v idx (idx + numel (shape g))) =? numel (shape g));
    [|now repeat split].
  specialize (IH (idx + numel (shape g))).
  destruct (update_grad_from m v (idx + numel (shape g))) as [m' r].
  simpl in *. destruct IH as (In & Id & Ig).
  rewrite In, Id, Ig. repeat split.
  unfold grad_shape. simpl. now rewrite Eg.
Qed.

(** X1.  [update_grad] changes gradients only: whether it returns or
    raises, every parameter keeps its name and its values, and every
    gradient keeps its shape (a missing gradient stays missing). *)
Theorem update_grad_frame m v :
  map (@pname A) (fst (update_grad m v)) = map (@pname A) m /\
  map (@data A) (fst (update_grad m v)) = map (@data A) m /\
  map (@grad_shape A) (fst (update_grad m v)) = map (@grad_shape A) m.
Proof. apply update_grad_from_frame. Qed.

Lemma grads_allocated_shapes m m0 :
  map (@grad_shape A) m0 = map (@grad_shape A) m ->
  map (@data A) m0 = map (@data A) m ->
  grads_allocated m -> grads_allocated m0.
Proof.
  revert m0. induction m as [|p m IH]; intros [|p0 m0] Hg Hd Ha;
    try discriminate Hg; [constructor|].
  simpl in Hg, Hd. injection Hg as Hg Hgs. injection Hd as Hd Hds.
  inversion Ha as [|? ? (g & Eg & Es) Hm]; subst.
  constructor; [|now apply IH].
  unfold grad_shape in Hg. rewrite Eg in Hg. simpl in Hg.
  destruct (grad p0) as [g0|]; simpl in Hg; [|discriminate Hg].
  injection Hg as Hg. exists g0. split; [reflexivity|]. now rewrite Hg, Es, Hd.
Qed.

(** When the vector is long enough, what [update_grad] returns depends on
    names, values and gradient shapes only. *)
Lemma update_grad_from_same_shapes m m0 v idx :
  map (@pname A) m0 = map (@pname A) m ->
  map (@data A) m0 = map (@data A) m ->
  map (@grad_shape A) m0 = map (@grad_shape A) m ->
  grads_allocated m ->
  idx + total_numel m <= length v ->
  update_grad_from m0 v idx = update_grad_from m v idx.
Proof.
  revert m0 idx. induction m as [|p m IH]; intros [|p0 m0] idx Hn Hd Hg Ha Hlen;
    try discriminate Hg; [reflexivity|].
  simpl in Hg, Hn, Hd. injection Hg as Hg Hgs. injection Hn as Hn Hns.
  injection Hd as Hd Hds.
  inversion Ha as [|? ? (g & Eg & Es) Hm]; subst.
  rewrite total_numel_cons in Hlen.
  unfold grad_shape in Hg. rewrite Eg in Hg. simpl in Hg.
  destruct (grad p0) as [g0|] eqn:E0; simpl in Hg; [|discriminate Hg].
  injection Hg as Hg. simpl. rewrite E0, Eg, Hg.
  rewrite reshape_ok by (rewrite slice_length, Es; lia).
  rewrite (IH m0 (idx + numel (shape g))) by (try assumption; rewrite Es; lia).
  destruct (update_grad_from m v (idx + numel (shape g))) as [m' r].
  f_equal. f_equal. unfold set_grad. now rewrite Hn, Hd.
Qed.

(** X2.  [update_grad] overwrites: when the gradients exist and the vector
    [w] is long enough, the outcome of writing [w] is the same whatever an
    earlier call wrote (or failed to write) before. *)
Theorem update_grad_overwrites m v w :
  grads_allocated m ->
  total_numel m <= length w ->
  update_grad (fst (update_grad m v)) w = update_grad m w.
Proof.
  intros Ha Hlen. destruct (update_grad_from_frame m v 0) as (Hn & Hd & Hg).
  unfold update_grad at 1 3.
  apply update_grad_from_same_shapes; solve [assumption | simpl; lia].
Qed.

(** The gradients written before the loop stops. *)
Lemma update_grad_from_app m1 m2 v idx :
  grads_allocated m1 ->
  idx + total_numel m1 <= length v ->
  exists m1' vs,
    update_grad_from m1 v idx = (m1', None) /\
    grad_vecs m1' = Ok vs /\
    concat vs = firstn (total_numel m1) (skipn idx v) /\
    update_grad_from (m1 ++ m2) v idx
    = (m1' ++ fst (update_grad_from m2 v (idx + total_numel m1)),
       snd (update_grad_from m2 v (idx + total_numel m1))).
Proof.
  intros Ha Hlen.
  destruct (@update_grad_from_enough A m1 v idx Ha Hlen)
    as (m1' & vs & E & Ev & Ec & _).
  exists m1', vs. split; [exact E|]. split; [exact Ev|]. split; [exact Ec|].
  clear Ev Ec vs. revert idx m1' Hlen E.
  induction Ha as [|p m1 (g & Eg & Es) Hm IH]; intros idx m1' Hlen E.
  - simpl in E. injection E as <-. simpl.
    replace (idx + total_numel []) with idx by (unfold total_numel; simpl; lia).
    now destruct (update_grad_from m2 v idx).
  - rewrite total_numel_cons in Hlen. simpl in E |- *. rewrite Eg in E |- *.
    rewrite reshape_ok in E |- * by (rewrite slice_length, Es; lia).
    destruct (update_grad_from m1 v (idx + numel (shape g))) as [r1 e1] eqn:E1.
    injection E as <- ->.
    rewrite (IH (idx + numel (shape g)) r1) by (try assumption; rewrite Es; lia).
    rewrite total_numel_cons, Es, Nat.add_assoc. reflexivity.
Qed.

(** X3.  [update_grad] is not atomic: at the first parameter without a
    gradient it raises the AttributeError, and by then the parameters
    before it hold the leading slices of the vector; that parameter and
    the ones after it are as they were. *)
Theorem update_grad_missing_gradient m1 p m2 v :
  grads_allocated m1 ->
  total_numel m1 <= length v ->
  grad p = None ->
  exists m1' vs,
    update_grad (m1 ++ p :: m2) v = (m1' ++ p :: m2, Some AttributeError_NoneType) /\
    grad_vecs m1' = Ok vs /\
    concat vs = firstn (total_numel m1) v.
Proof.
  intros Ha Hlen Hp.
  destruct (@update_grad_from_app m1 (p :: m2) v 0 Ha Hlen)
    as (m1' & vs & _ & Ev & Ec & E).
  exists m1', vs. split; [|split; assumption].
  unfold update_grad. rewrite E. simpl. now rewrite Hp.
Qed.

End VectorizerMore.

Lemma update_grad_overwrites_witness :
  Vectorizer.grads_allocated Examples.scenario_model /\
  (Vectorizer.total_numel Examples.scenario_model <= length Examples.nine)%nat /\
  Vectorizer.update_grad
    (fst (Vectorizer.update_grad Examples.scenario_model Examples.eight))
    Examples.nine
  = Vectorizer.update_grad Examples.scenario_model Examples.nine.
Proof.
  assert (H : (Vectorizer.total_numel Examples.scenario_model <= length Examples.nine)%nat)
    by (vm_compute; lia).
  split; [exact scenario_model_grads|]. split; [exact H|].
  exact (@update_grad_overwrites ext Examples.scenario_model Examples.eight
           Examples.nine scenario_model_grads H).
Defined.

Lemma update_grad_missing_gradient_witness :
  Vectorizer.grads_allocated Examples.model1 /\
  (Vectorizer.total_numel Examples.model1 <= length Examples.nine)%nat /\
  Vectorizer.grad MoreExamples.frozen = None /\
  exists m1' vs,
    Vectorizer.update_grad (Examples.model1 ++ MoreExamples.frozen :: Examples.model1)
      Examples.nine
    = (m1' ++ MoreExamples.frozen :: Examples.model1, Some AttributeError_NoneType) /\
    Vectorizer.grad_vecs m1' = Ok vs /\
    concat vs = firstn (Vectorizer.total_numel Examples.model1) Examples.nine.
Proof.
  assert (H : (Vectorizer.total_numel Examples.model1 <= length Examples.nine)%nat)
    by (vm_compute; lia).
  split; [exact model1_grads|]. split; [exact H|]. split; [reflexivity|].
  exact (@update_grad_missing_gradient ext Examples.model1 MoreExamples.frozen
           Examples.model1 Examples.nine model1_grads H eq_refl).
Defined.

Section VectorizerParam.

Import Vectorizer.
Close Scope R_scope.
Variable A : Type.
Implicit Types (m : model A) (v w : list A) (p : param A).

Lemma update_param_from_enough m v idx :
  idx + total_numel m <= length v ->
  exists m',
    update_param_from m v idx = (m', None) /\
    concat (map (fun p => storage (data p)) m')
      = firstn (total_numel m) (skipn idx v) /\
    map (fun p => shape (data p)) m' = map (fun p => shape (data p)) m /\
    map (@pname A) m' = map (@pname A) m /\
    map (@grad A) m' = map (@grad A) m.
Proof.
  revert idx. induction m as [|p m IH]; intros idx Hlen.
  - exists []. now repeat split.
  - rewrite total_numel_cons in Hlen. simpl.
    rewrite reshape_ok by (rewrite slice_length; lia).
    destruct (IH (idx + numel (shape (data p)))) as (m' & E & Ec & Es & En & Eg);
      [lia|].
    rewrite E. eexists. split; [reflexivity|]. simpl.
    rewrite Es, En, Eg. repeat split.
    rewrite Ec, total_numel_cons.
    unfold slice.
    replace (idx + numel (shape (data p)) - idx) with (numel (shape (data p))) by lia.
    rewrite Nat.add_comm, <- skipn_skipn.
    set (u := skipn idx v).
    rewrite <- (firstn_skipn (numel (shape (data p))) u) at 3.
    rewrite firstn_app.
    assert (Hu : numel (shape (data p)) <= length u)
      by (unfold u; rewrite length_skipn; lia).
    rewrite length_firstn, Nat.min_l by exact Hu.
    replace (numel (shape (data p)) + total_numel m - numel (shape (data p)))
      with (total_numel m) by lia.
    f_equal. rewrite firstn_firstn. f_equal. lia.
Qed.

Lemma update_param_from_short m v idx :
  idx <= length v ->
  length v < idx + total_numel m ->
  snd (update_param_from m v idx) = Some RuntimeError_reshape.
Proof.
  revert idx. induction m as [|p m IH]; intros idx Hle Hlt.
  - unfold total_numel in Hlt. simpl in Hlt. lia.
  - rewrite total_numel_cons in Hlt. simpl.
    destruct (le_lt_dec (idx + numel (shape (data p))) (length v)) as [Hfit|Hno].
    + rewrite reshape_ok by (rewrite slice_length; lia).
      specialize (IH (idx + numel (shape (data p))) Hfit).
      destruct (update_param_from m v (idx + numel (shape (data p)))) as [m' r].
      simpl in *. apply IH. lia.
    + rewrite reshape_err; [reflexivity|]. rewrite slice_length. lia.
Qed.

(** X4.  [update_param] checks the length of its vector no more than
    [update_grad] does: a vector that is too short makes it raise (the
    [reshape] error); one that is long enough is accepted, the parameters
    receive its first [total_numel m] elements in order and keep their
    shapes, names and gradients, and whatever follows is ignored. *)
Theorem update_param_length m v :
  (length v < total_numel m ->
     snd (update_param m v) = Some RuntimeError_reshape) /\
  (total_numel m <= length v ->
     exists m',
       update_param m v = (m', None) /\
       concat (map (fun p => storage (data p)) m') = firstn (total_numel m) v /\
       map (fun p => shape (data p)) m' = map (fun p => shape (data p)) m /\
       map (@pname A) m' = map (@pname A) m /\
       map (@grad A) m' = map (@grad A) m).
Proof.
  split; intros H.
  - apply update_param_from_short; lia.
  - apply (update_param_from_enough m v 0). simpl. lia.
Qed.

Lemma grad_vecs_missing m :
  Exists (fun p => grad p = None) m ->
  grad_vecs m = Err AttributeError_NoneType.
Proof.
  induction 1 as [p m Hp | p m _ IH]; simpl.
  - now rewrite Hp.
  - destruct (grad p); [|reflexivity]. now rewrite IH.
Qed.

Lemma grad_vecs_allocated m :
  grads_allocated m ->
  grads_wf m ->
  exists vs, grad_vecs m = Ok vs /\ length vs = length m /\
             length (concat vs) = total_numel m.
Proof.
  intros Ha Hw. induction Ha as [|p m (g & Eg & Es) _ IH].
  - exists []. now repeat split.
  - inversion Hw as [|? ? Hp Hm]; subst.
    destruct (IH Hm) as (vs & E & El & Ec).
    exists (storage g :: vs). simpl. rewrite Eg, E. simpl.
    split; [reflexivity|]. split; [now rewrite El|].
    rewrite length_app, Ec, total_numel_cons.
    f_equal. rewrite (Hp g Eg). now rewrite Es.
Qed.

(** X5.  [get_model_grad_vec] raises the AttributeError as soon as one
    parameter has no gradient; on a model with at least one parameter
    whose gradients all exist, with the shapes of their parameters, it
    returns a vector of exactly [total_numel m] elements -- as many as
    [get_model_param_vec] returns and [update_grad] consumes. *)
Theorem get_model_grad_vec_total m :
  (Exists (fun p => grad p = None) m ->
     get_model_grad_vec m = Err AttributeError_NoneType) /\
  (m <> [] -> grads_allocated m -> grads_wf m ->
     exists v, get_model_grad_vec m = Ok v /\ length v = total_numel m).
Proof.
  split.
  - intros H. unfold get_model_grad_vec. now rewrite grad_vecs_missing.
  - intros Hne Ha Hw.
    destruct (grad_vecs_allocated Ha Hw) as (vs & E & El & Ec).
    unfold get_model_grad_vec. rewrite E. simpl.
    destruct vs as [|x vs].
    + destruct m; [contradiction | discriminate El].
    + eexists. split; [reflexivity | exact Ec].
Qed.

End VectorizerParam.

Lemma update_param_length_witness :
  (length Examples.eight < Vectorizer.total_numel Examples.scenario_model)%nat /\
  (Vectorizer.total_numel Examples.scenario_model <= length Examples.ten)%nat /\
  snd (Vectorizer.update_param Examples.scenario_model Examples.eight)
    = Some RuntimeError_reshape /\
  exists m',
    Vectorizer.update_param Examples.scenario_model Examples.ten = (m', None) /\
    concat (map (fun p => Vectorizer.storage (Vectorizer.data p)) m')
      = firstn (Vectorizer.total_numel Examples.scenario_model) Examples.ten /\
    map (fun p => Vectorizer.shape (Vectorizer.data p)) m'
      = map (fun p => Vectorizer.shape (Vectorizer.data p)) Examples.scenario_model /\
    map (@Vectorizer.pname ext) m' = map (@Vectorizer.pname ext) Examples.scenario_model /\
    map (@Vectorizer.grad ext) m' = map (@Vectorizer.grad ext) Examples.scenario_model.
Proof.
  assert (H1 : (length Examples.eight
                < Vectorizer.total_numel Examples.scenario_model)%nat)
    by (vm_compute; lia).
  assert (H2 : (Vectorizer.total_numel Examples.scenario_model
                <= length Examples.ten)%nat) by (vm_compute; lia).
  split; [exact H1|]. split; [exact H2|]. split.
  - exact (proj1 (@update_param_length ext Examples.scenario_model Examples.eight) H1).
  - exact (proj2 (@update_param_length ext Examples.scenario_model Examples.ten) H2).
Defined.

Lemma scenario_model_grads_wf : grads_wf Examples.scenario_model.
Proof.
  repeat constructor; intros g Hg; injection Hg as <-; reflexivity.
Defined.

Lemma get_model_grad_vec_total_witness :
  Exists (fun p => Vectorizer.grad p = None) [MoreExamples.frozen] /\
  Vectorizer.get_model_grad_vec [MoreExamples.frozen] = Err AttributeError_NoneType /\
  Examples.scenario_model <> [] /\
  Vectorizer.grads_allocated Examples.scenario_model /\
  grads_wf Examples.scenario_model /\
  exists v, Vectorizer.get_model_grad_vec Examples.scenario_model = Ok v /\
            length v = Vectorizer.total_numel Examples.scenario_model.
Proof.
  assert (He : Exists (fun p => Vectorizer.grad p = None) [MoreExamples.frozen])
    by (constructor; reflexivity).
  assert (Hn : Examples.scenario_model <> []) by discriminate.
  split; [exact He|]. split.
  { exact (proj1 (@get_model_grad_vec_total ext [MoreExamples.frozen]) He). }
  split; [exact Hn|]. split; [exact scenario_model_grads|].
  split; [exact scenario_model_grads_wf|].
  exact (proj2 (@get_model_grad_vec_total ext Examples.scenario_model)
           Hn scenario_model_grads scenario_model_grads_wf).
Defined.

(** ** More on the PerExampleClipper *)

Section ClipperMore.

Lemma row_norm_nonneg (r : list ext) (n : R) : row_norm r = Fin n -> 0 <= n.
Proof.
  unfold row_norm. destruct (tsum (map (fun x => emul x x) r)) as [s| | |];
    simpl; try discriminate.
  destruct (Rlt_dec s 0); [discriminate|].
  intros H. injection H as <-. apply sqrt_pos.
Qed.

(** A row whose norm is within the bound is left alone by both kernels,
    whatever else it holds. *)
Lemma row_within_bound (c n : R) (r : list ext) :
  0 < c -> row_norm r = Fin n -> n <= c ->
  map (fun x => emul x (clamp_max (ediv (Fin c) (row_norm r)) (Fin 1))) r = r /\
  clip_row_inplace (Fin c) r = r.
Proof.
  intros Hc Hn Hle. pose proof (row_norm_nonneg r Hn) as H0. split.
  - rewrite Hn, clamp_scale_pos by assumption.
    destruct (Rle_dec n c); [|contradiction].
    rewrite <- (map_id r) at 2. apply map_ext. apply emul_one_r.
  - unfold clip_row_inplace.
    change (esqrt (tsum (map (fun x => emul x x) r))) with (row_norm r).
    rewrite Hn. simpl. destruct (Rlt_dec c n); [lra | reflexivity].
Qed.

Lemma rows_within_bound (c : R) (rows : list (list R)) (outs : list (list ext)) :
  0 < c ->
  Forall2 (row_clipped c) rows outs ->
  map (fun r => map (fun x =>
         emul x (clamp_max (ediv (Fin c) (row_norm r)) (Fin 1))) r) outs = outs /\
  map (clip_row_inplace (Fin c)) outs = outs.
Proof.
  intros Hc H. induction H as [|r out rows outs Hr _ [IH1 IH2]]; [now split|].
  destruct Hr as ((n & Hn & Hle) & _).
  destruct (row_within_bound out Hc Hn Hle) as [E1 E2].
  cbn [map]. now rewrite E1, E2, IH1, IH2.
Qed.

(** X6.  Clipping is idempotent: on a matrix of finite values and for a
    bound [c > 0], clipping the clipped matrix again changes nothing, in
    the functional branch and in the in-place kernel. *)
Theorem clip_idempotent (k : nat) (rows : list (list R)) (c : R) :
  0 < c ->
  (exists F,
     fst (clip_column (of_reals k rows) (Fin c) false) = Some F /\
     fst (clip_column F (Fin c) false) = Some F) /\
  inplace_clipping (inplace_clipping (of_reals k rows) (Fin c)) (Fin c)
  = inplace_clipping (of_reals k rows) (Fin c).
Proof.
  intros Hc. split.
  - eexists. split; [apply functional_rows|].
    rewrite functional_rows. cbn [ncols mrows of_reals]. do 2 f_equal.
    exact (proj1 (rows_within_bound Hc (functional_rows_clipped rows Hc))).
  - unfold inplace_clipping. cbn [ncols mrows of_reals]. f_equal.
    exact (proj2 (rows_within_bound Hc (inplace_rows_clipped rows Hc))).
Qed.

Lemma clip_idempotent_witness :
  0 < 1 /\
  (exists F,
     fst (clip_column (of_reals 2 Examples.embedding_rows) (Fin 1) false) = Some F /\
     fst (clip_column F (Fin 1) false) = Some F) /\
  inplace_clipping (inplace_clipping (of_reals 2 Examples.embedding_rows) (Fin 1)) (Fin 1)
  = inplace_clipping (of_reals 2 Examples.embedding_rows) (Fin 1).
Proof.
  assert (H : 0 < 1) by lra. split; [exact H|].
  exact (@clip_idempotent 2 Examples.embedding_rows 1 H).
Defined.

Lemma tsum_nan (v : list ext) : In NaN v -> tsum v = NaN.
Proof.
  unfold tsum. induction v as [|x v IH]; intros H; [contradiction|].
  simpl. destruct H as [-> | H]; [reflexivity|].
  rewrite (IH H). now destruct x.
Qed.

Lemma row_norm_nan (r : list ext) : In NaN r -> row_norm r = NaN.
Proof.
  intros H. unfold row_norm. rewrite tsum_nan; [reflexivity|].
  apply in_map_iff. exists NaN. now split.
Qed.

Lemma emul_nan_r (x : ext) : emul x NaN = NaN.
Proof. now destruct x. Qed.

Lemma ediv_nan_r (x : ext) : ediv x NaN = NaN.
Proof. now destruct x. Qed.

(** The functional branch on a row that holds a NaN. *)
Lemma functional_row_nan (clip : ext) (r : list ext) :
  In NaN r ->
  map (fun x => emul x (clamp_max (ediv clip (row_norm r)) (Fin 1))) r
  = map (fun _ => NaN) r.
Proof.
  intros H. rewrite (row_norm_nan _ H), ediv_nan_r. unfold clamp_max. simpl.
  apply map_ext. apply emul_nan_r.
Qed.

(** X7.  A NaN in a row: the functional branch of [clip_column] returns
    the whole row as NaN, for every bound; [inplace_clipping] does not
    enter its branch and leaves the row, NaN included, as it was. *)
Theorem clip_nan_row (M : matrix) (clip : ext) (i : nat) (r : list ext) :
  nth_error (mrows M) i = Some r ->
  In NaN r ->
  (exists F, fst (clip_column M clip false) = Some F /\
             nth_error (mrows F) i = Some (map (fun _ => NaN) r)) /\
  nth_error (mrows (inplace_clipping M clip)) i = Some r.
Proof.
  intros Hi Hnan. split.
  - eexists. split; [apply functional_rows|]. cbn [mrows].
    rewrite (map_nth_error _ _ _ Hi). f_equal.
    now apply functional_row_nan.
  - unfold inplace_clipping. cbn [mrows].
    rewrite (map_nth_error _ _ _ Hi). f_equal.
    unfold clip_row_inplace.
    change (esqrt (tsum (map (fun x => emul x x) r))) with (row_norm r).
    now rewrite (row_norm_nan _ Hnan).
Qed.

Lemma clip_nan_row_witness :
  nth_error (mrows (mkMatrix 2 [[NaN; Fin 1]])) 0 = Some [NaN; Fin 1] /\
  In NaN [NaN; Fin 1] /\
  (exists F, fst (clip_column (mkMatrix 2 [[NaN; Fin 1]]) (Fin 5) false) = Some F /\
             nth_error (mrows F) 0 = Some (map (fun _ => NaN) [NaN; Fin 1])) /\
  nth_error (mrows (inplace_clipping (mkMatrix 2 [[NaN; Fin 1]]) (Fin 5))) 0
    = Some [NaN; Fin 1].
Proof.
  assert (Hin : In NaN [NaN; Fin 1]) by (left; reflexivity).
  split; [reflexivity|]. split; [exact Hin|].
  exact (@clip_nan_row (mkMatrix 2 [[NaN; Fin 1]]) (Fin 5) 0 [NaN; Fin 1]
           eq_refl Hin).
Defined.

End ClipperMore.

(** ** The norm of the aggregate *)

Section Sensitivity.

Lemma rdot_comm (a b : list R) : rdot a b = rdot b a.
Proof.
  revert b. induction a as [|x a IH]; intros [|y b]; try reflexivity.
  rewrite !rdot_cons, IH. ring.
Qed.

Lemma sum_sq_rdot (a : list R) :
  fold_right Rplus 0 (map (fun x => x * x) a) = rdot a a.
Proof.
  induction a as [|x a IH]; [reflexivity|].
  rewrite rdot_cons. simpl. now rewrite IH.
Qed.

Lemma rdot_self_nonneg (a : list R) : 0 <= rdot a a.
Proof. rewrite <- sum_sq_rdot. apply sum_sq_nonneg. Qed.

Lemma cauchy_schwarz (a b : list R) :
  rdot a b * rdot a b <= rdot a a * rdot b b.
Proof.
  revert b. induction a as [|x a IH]; intros b.
  - rewrite !rdot_nil_l. pose proof (rdot_self_nonneg b). lra.
  - destruct b as [|y b].
    + rewrite rdot_nil_r, (rdot_nil_l []). lra.
    + rewrite !rdot_cons.
      pose proof (rdot_self_nonneg a) as HA.
      pose proof (rdot_self_nonneg b) as HB.
      specialize (IH b).
      set (s := rdot a b) in *. set (A := rdot a a) in *. set (B := rdot b b) in *.
      assert (H2 : 2 * (x * y * s) <= x * x * B + y * y * A).
      { destruct (Rle_dec (2 * (x * y * s)) (x * x * B + y * y * A)) as [L|L];
          [exact L|]. exfalso.
        assert (Hp : 0 <= x * x * B + y * y * A).
        { apply Rplus_le_le_0_compat; apply Rmult_le_pos;
            try assumption; apply Rle_0_sqr. }
        assert (Hlt : x * x * B + y * y * A < 2 * (x * y * s)) by lra.
        assert (Hsq : (x * x * B + y * y * A) * (x * x * B + y * y * A)
                      < (2 * (x * y * s)) * (2 * (x * y * s))).
        { apply Rmult_le_0_lt_compat; assumption. }
        assert (H4 : 4 * (x * x) * (y * y) * (s * s)
                     <= 4 * (x * x) * (y * y) * (A * B)).
        { apply Rmult_le_compat_l; [|exact IH].
          pose proof (Rle_0_sqr x). pose proof (Rle_0_sqr y).
          unfold Rsqr in *. nra. }
        pose proof (Rle_0_sqr (x * x * B - y * y * A)) as H5.
        unfold Rsqr in H5. lra. }
      nra.
Qed.

Lemma rdot_abs_le_norms (a b : list R) : Rabs (rdot a b) <= rnorm a * rnorm b.
Proof.
  unfold rnorm. rewrite !sum_sq_rdot.
  rewrite <- sqrt_mult by apply rdot_self_nonneg.
  rewrite <- sqrt_Rsqr_abs. apply sqrt_le_1_alt.
  unfold Rsqr. apply cauchy_schwarz.
Qed.

Lemma rnorm_sq (a : list R) : rnorm a * rnorm a = rdot a a.
Proof.
  unfold rnorm. rewrite sum_sq_rdot. apply sqrt_sqrt. apply rdot_self_nonneg.
Qed.

Lemma rdot_axpy_r (x : R) (r acc q : list R) :
  length r = length acc ->
  rdot q (map (fun pq => x * fst pq + snd pq) (combine r acc))
  = x * rdot q r + rdot q acc.
Proof.
  intros H. rewrite rdot_comm, rdot_axpy by exact H.
  now rewrite (rdot_comm r), (rdot_comm acc).
Qed.

(** Minkowski: the norm of [x * r + acc]. *)
Lemma rnorm_axpy (x : R) (r acc : list R) :
  length r = length acc ->
  rnorm (map (fun pq => x * fst pq + snd pq) (combine r acc))
  <= Rabs x * rnorm r + rnorm acc.
Proof.
  intros Hlen.
  set (u := map (fun pq => x * fst pq + snd pq) (combine r acc)).
  assert (Hu : rdot u u
               = x * x * rdot r r + 2 * x * rdot r acc + rdot acc acc).
  { unfold u. rewrite rdot_axpy by exact Hlen.
    rewrite !rdot_axpy_r by exact Hlen. rewrite (rdot_comm acc r). ring. }
  pose proof (rnorm_nonneg r) as Hr. pose proof (rnorm_nonneg acc) as Ha.
  pose proof (Rabs_pos x) as Hx.
  assert (Hb : 0 <= Rabs x * rnorm r + rnorm acc) by nra.
  rewrite <- (sqrt_square _ Hb).
  unfold rnorm at 1. rewrite sum_sq_rdot, Hu.
  apply sqrt_le_1_alt.
  assert (Hc : x * rdot r acc <= Rabs x * (rnorm r * rnorm acc)).
  { eapply Rle_trans; [apply Rle_abs|]. rewrite Rabs_mult.
    apply Rmult_le_compat_l; [exact Hx | apply rdot_abs_le_norms]. }
  pose proof (rnorm_sq r) as Er. pose proof (rnorm_sq acc) as Ea.
  assert (Hxx : Rabs x * Rabs x = x * x).
  { unfold Rabs. destruct (Rcase_abs x); ring. }
  nra.
Qed.

Lemma rnorm_zeros (d : nat) : rnorm (repeat 0 d) = 0.
Proof.
  unfold rnorm. rewrite sum_sq_rdot, rdot_zeros_l. apply sqrt_0.
Qed.

(** The norm of a combination of rows. *)
Lemma rnorm_lincomb (d : nat) (w : list R) (rows : list (list R)) :
  Forall (fun r => length r = d) rows ->
  rnorm (lincomb d w rows) <= rdot (map Rabs w) (map rnorm rows).
Proof.
  intros H. revert w. induction H as [|r rows Hr Hrows IH]; intros [|x w];
    cbn [lincomb map]; rewrite ?rnorm_zeros, ?rdot_nil_l, ?rdot_nil_r;
    try lra.
  rewrite rdot_cons.
  eapply Rle_trans; [apply rnorm_axpy; now rewrite lincomb_length|].
  specialize (IH w). lra.
Qed.

Lemma functional_row_real (c : R) (r : list R) :
  0 < c ->
  map (fun x => emul x (clamp_max (ediv (Fin c) (row_norm (map Fin r))) (Fin 1)))
      (map Fin r)
  = map Fin (map (fun x => x * clip_factor c r) r).
Proof.
  intros Hc. rewrite row_norm_fin, clamp_scale_pos, map_emul_fin;
    [reflexivity | exact Hc | apply rnorm_nonneg].
Qed.

Lemma functional_real (k : nat) (rows : list (list R)) (c : R) :
  0 < c ->
  fst (clip_column (of_reals k rows) (Fin c) false)
  = Some (of_reals k (map (fun r => map (fun x => x * clip_factor c r) r) rows)).
Proof.
  intros Hc. rewrite functional_rows. unfold of_reals. cbn [ncols mrows].
  do 2 f_equal. rewrite !map_map. apply map_ext. intros r.
  now apply functional_row_real.
Qed.

Lemma clip_factor_nonneg (c : R) (r : list R) : 0 < c -> 0 <= clip_factor c r.
Proof.
  intros Hc. unfold clip_factor. destruct (Rle_dec (rnorm r) c); [lra|].
  apply Rlt_le. apply Rdiv_lt_0_compat; lra.
Qed.

Lemma clipped_row_norm (c : R) (r : list R) :
  0 < c -> rnorm (map (fun x => x * clip_factor c r) r) <= c.
Proof.
  intros Hc. rewrite rnorm_scale by now apply clip_factor_nonneg.
  unfold clip_factor. destruct (Rle_dec (rnorm r) c) as [L|L]; [lra|].
  unfold Rdiv. rewrite Rmult_assoc, Rinv_l by lra. lra.
Qed.

Lemma sum_dim0_fin (k : nat) (rows : list (list R)) :
  sum_dim0 (of_reals k rows)
  = map Fin (map (fun j => rsum (rcol j rows)) (seq 0 k)).
Proof.
  unfold sum_dim0. cbn [ncols of_reals]. rewrite map_map.
  apply map_ext. intros j.
  change (mkMatrix k (map (map Fin) rows)) with (of_reals k rows).
  rewrite col_fin. apply tsum_fin.
Qed.

Lemma rdot_repeat (s : R) (v : list R) :
  rdot (repeat s (length v)) v = s * rsum v.
Proof.
  induction v as [|x v IH]; simpl.
  - rewrite rdot_nil_l. unfold rsum. simpl. ring.
  - rewrite rdot_cons, IH. unfold rsum. simpl. ring.
Qed.

Lemma rsum_le (c : R) (v : list R) :
  Forall (fun x => x <= c) v -> rsum v <= INR (length v) * c.
Proof.
  induction 1 as [|x v Hx _ IH].
  - unfold rsum. simpl. lra.
  - change (rsum (x :: v)) with (x + rsum v).
    change (length (x :: v)) with (S (length v)). rewrite S_INR. lra.
Qed.

Lemma map_Rabs_repeat (s : R) (n : nat) :
  0 <= s -> map Rabs (repeat s n) = repeat s n.
Proof.
  intros Hs. induction n as [|n IH]; [reflexivity|].
  simpl. now rewrite IH, Rabs_pos_eq.
Qed.

(** The mean of rows is their combination with equal weights. *)
Lemma mean_as_lincomb (k : nat) (rows : list (list R)) :
  Forall (fun r => length r = k) rows ->
  map (fun j => rsum (rcol j rows) / INR (length rows)) (seq 0 k)
  = lincomb k (repeat (/ INR (length rows)) (length rows)) rows.
Proof.
  intros Hwf.
  rewrite <- columns_lincomb by (try assumption; now rewrite repeat_length).
  apply map_ext. intros j.
  replace (length rows) with (length (rcol j rows)) at 3
    by (unfold rcol; apply length_map).
  rewrite rdot_repeat. unfold Rdiv. ring.
Qed.

(** The mean of rows of norm at most [c] has norm at most [c]. *)
Lemma mean_rows_norm (k : nat) (rows : list (list R)) (c : R) :
  rows <> [] ->
  Forall (fun r => length r = k) rows ->
  Forall (fun r => rnorm r <= c) rows ->
  rnorm (map (fun j => rsum (rcol j rows) / INR (length rows)) (seq 0 k)) <= c.
Proof.
  intros Hne Hwf Hb.
  assert (Hn : 0 < INR (length rows)).
  { apply lt_0_INR. destruct rows; [contradiction | simpl; lia]. }
  set (s := / INR (length rows)).
  assert (Hs : 0 <= s) by (apply Rlt_le; now apply Rinv_0_lt_compat).
  rewrite mean_as_lincomb by exact Hwf. fold s.
  eapply Rle_trans; [apply rnorm_lincomb; exact Hwf|].
  rewrite map_Rabs_repeat by exact Hs.
  replace (length rows) with (length (map rnorm rows)) by apply length_map.
  rewrite rdot_repeat.
  assert (Hsum : rsum (map rnorm rows) <= INR (length (map rnorm rows)) * c).
  { apply rsum_le. apply Forall_forall. intros x Hx.
    apply in_map_iff in Hx. destruct Hx as (r & <- & Hr).
    rewrite Forall_forall in Hb. now apply Hb. }
  rewrite length_map in Hsum.
  apply Rle_trans with (s * (INR (length rows) * c)).
  - apply Rmult_le_compat_l; assumption.
  - unfold s. rewrite <- Rmult_assoc, Rinv_l by lra. lra.
Qed.

(** The mean over the rows of a non-empty matrix of finite values. *)
Lemma mean_theta_fin (k : nat) (rows : list (list R)) :
  rows <> [] ->
  map (fun s => ediv s (Fin (INR (length rows)))) (sum_dim0 (of_reals k rows))
  = map Fin (map (fun j => rsum (rcol j rows) / INR (length rows)) (seq 0 k)).
Proof.
  intros Hne. rewrite sum_dim0_fin, !map_map. apply map_ext. intros j. simpl.
  destruct (Req_dec_T (INR (length rows)) 0) as [E|_]; [|reflexivity].
  exfalso. revert E. apply not_0_INR.
  destruct rows; [contradiction | discriminate].
Qed.

(** X8.  In exact arithmetic (the rounding of floats is not modelled), the
    aggregate that the noise is added to has norm at most the clip bound:
    for a non-empty matrix of finite values with rows of length [k] and a
    bound [c > 0], the sum of the clipped rows divided by their number is
    a vector of [k] finite values of L2 norm at most [c]. *)
Theorem clipped_mean_bounded (k : nat) (rows : list (list R)) (c : R) :
  0 < c ->
  rows <> [] ->
  Forall (fun r => length r = k) rows ->
  exists F t,
    fst (clip_column (of_reals k rows) (Fin c) false) = Some F /\
    map (fun s => ediv s (Fin (INR (nrows F)))) (sum_dim0 F) = map Fin t /\
    length t = k /\
    rnorm t <= c.
Proof.
  intros Hc Hne Hwf.
  set (rows' := map (fun r => map (fun x => x * clip_factor c r) r) rows).
  assert (Hl : length rows' = length rows) by apply length_map.
  assert (Hne' : rows' <> []).
  { intros E. apply Hne. destruct rows; [reflexivity | discriminate E]. }
  exists (of_reals k rows'),
         (map (fun j => rsum (rcol j rows') / INR (length rows')) (seq 0 k)).
  split; [now apply functional_real|]. split; [|split].
  - rewrite sum_dim0_fin. unfold nrows, of_reals. cbn [mrows].
    rewrite length_map, !map_map. apply map_ext. intros j. simpl.
    destruct (Req_dec_T (INR (length rows')) 0) as [E|_]; [|reflexivity].
    exfalso. revert E. apply not_0_INR.
    destruct rows'; [contradiction | discriminate].
  - now rewrite length_map, length_seq.
  - apply mean_rows_norm; [exact Hne'| |].
    + apply Forall_forall. intros r' Hr'. apply in_map_iff in Hr'.
      destruct Hr' as (r & <- & Hr). rewrite length_map.
      rewrite Forall_forall in Hwf. now apply Hwf.
    + apply Forall_forall. intros r' Hr'. apply in_map_iff in Hr'.
      destruct Hr' as (r & <- & Hr). now apply clipped_row_norm.
Qed.

Lemma clipped_mean_bounded_witness :
  0 < 1 /\
  Examples.embedding_rows <> [] /\
  Forall (fun r => length r = 2%nat) Examples.embedding_rows /\
  exists F t,
    fst (clip_column (of_reals 2 Examples.embedding_rows) (Fin 1) false) = Some F /\
    map (fun s => ediv s (Fin (INR (nrows F)))) (sum_dim0 F) = map Fin t /\
    length t = 2%nat /\
    rnorm t <= 1.
Proof.
  assert (Hc : 0 < 1) by lra.
  assert (Hne : Examples.embedding_rows <> []) by discriminate.
  assert (Hwf : Forall (fun r => length r = 2%nat) Examples.embedding_rows)
    by (repeat constructor).
  split; [exact Hc|]. split; [exact Hne|]. split; [exact Hwf|].
  exact (@clipped_mean_bounded 2 Examples.embedding_rows 1 Hc Hne Hwf).
Defined.

End Sensitivity.

(** ** AverageMeter *)

Section MeterFacts.

Import AverageMeter.

Lemma wcount_pos (l : list (R * Z)) :
  Forall (fun vn => (0 < snd vn)%Z) l -> (0 <= wcount l)%Z.
Proof.
  induction 1 as [|x l Hx _ IH]; simpl; lia.
Qed.

Lemma wcount_pos_strict (l : list (R * Z)) :
  l <> [] -> Forall (fun vn => (0 < snd vn)%Z) l -> (0 < wcount l)%Z.
Proof.
  intros Hne H. destruct H as [|x l Hx Hl]; [contradiction|].
  simpl. pose proof (wcount_pos Hl). lia.
Qed.

(** A run of updates with positive weights, from a meter whose sum is
    finite and whose count is not negative. *)
Lemma updates_from (v0 a0 : ext) (S : R) (C : Z) (l : list (R * Z)) (d : R * Z) :
  (0 <= C)%Z ->
  l <> [] ->
  Forall (fun vn => (0 < snd vn)%Z) l ->
  exists s,
    updates (mkMeter v0 a0 (Fin S) C) (finite_calls l)
    = (mkMeter (Fin (fst (last l d))) (Fin (s / IZR (C + wcount l))) (Fin s)
         (C + wcount l), None) /\
    s = S + wsum l.
Proof.
  intros HC Hne Hpos. revert v0 a0 S C HC.
  induction Hpos as [|[v n] l Hn Hl IH]; intros v0 a0 S C HC; [contradiction|].
  simpl in Hn. cbn [finite_calls map updates fst snd]. unfold update.
  cbn [sum count emul eadd].
  destruct (Z.eqb_spec (C + n) 0) as [E|E]; [lia|].
  cbn [ediv].
  destruct (Req_dec_T (IZR (C + n)) 0) as [E0|_].
  { apply eq_IZR_R0 in E0. contradiction. }
  destruct l as [|y l].
  - exists (S + v * IZR n). cbn [updates map]. split.
    + cbn [wcount fold_right last fst snd]. now rewrite Z.add_0_r.
    + cbn [wsum fold_right fst snd]. ring.
  - destruct (IH ltac:(discriminate) (Fin v)
                (Fin ((S + v * IZR n) / IZR (C + n))) (S + v * IZR n) (C + n)%Z)
      as (s & E1 & E2); [lia|].
    exists s. split.
    + change (finite_calls (y :: l)) with
        (map (fun vn : R * Z => (Fin (fst vn), snd vn)) (y :: l)) in E1.
      rewrite E1.
      change (last ((v, n) :: y :: l) d) with (last (y :: l) d).
      replace (C + wcount ((v, n) :: y :: l))%Z with (C + n + wcount (y :: l))%Z;
        [reflexivity|].
      change (wcount ((v, n) :: y :: l)) with (n + wcount (y :: l))%Z. lia.
    + rewrite E2. change (wsum ((v, n) :: y :: l)) with (v * IZR n + wsum (y :: l)).
      ring.
Qed.

Lemma wsum_bounds (lo hi : R) (l : list (R * Z)) :
  Forall (fun vn => (0 < snd vn)%Z) l ->
  Forall (fun vn => lo <= fst vn <= hi) l ->
  lo * IZR (wcount l) <= wsum l <= hi * IZR (wcount l).
Proof.
  intros Hpos Hb. induction Hpos as [|[v n] l Hn Hl IH].
  - simpl. lra.
  - inversion Hb as [|? ? Hv Hbl]; subst. simpl in Hn, Hv.
    specialize (IH Hbl).
    change (wsum ((v, n) :: l)) with (v * IZR n + wsum l).
    change (wcount ((v, n) :: l)) with (n + wcount l)%Z.
    rewrite plus_IZR.
    assert (Hn' : 0 < IZR n) by (apply IZR_lt; exact Hn).
    nra.
Qed.

(** X9.  A meter that has been reset and then updated with finite values
    and positive weights raises nothing; afterwards its [count] is the
    total weight and its [val] the last value, and, in exact arithmetic
    (the rounding of floats is not modelled), its [sum] is the weighted
    sum, its [avg] their quotient, and when every value lies between [lo]
    and [hi], so does [avg]. *)
Theorem meter_weighted_mean (l : list (R * Z)) (d : R * Z) (lo hi : R) :
  l <> [] ->
  Forall (fun vn => (0 < snd vn)%Z) l ->
  Forall (fun vn => lo <= fst vn <= hi) l ->
  exists s a,
    updates reset (finite_calls l)
    = (mkMeter (Fin (fst (last l d))) (Fin a) (Fin s) (wcount l), None) /\
    s = wsum l /\
    a = wsum l / IZR (wcount l) /\
    lo <= a <= hi.
Proof.
  intros Hne Hpos Hb.
  destruct (@updates_from (Fin 0) (Fin 0) 0 0%Z l d) as (s & E & Es);
    [lia | exact Hne | exact Hpos |].
  assert (Hs : s = wsum l) by (rewrite Es; ring).
  exists s, (s / IZR (wcount l)).
  rewrite Z.add_0_l in E. split; [exact E|]. split; [exact Hs|].
  split; [now rewrite Hs|].
  pose proof (wcount_pos_strict Hne Hpos) as Hc.
  assert (Hc' : 0 < IZR (wcount l)) by (apply IZR_lt; exact Hc).
  destruct (wsum_bounds Hpos Hb) as [H1 H2]. rewrite Hs.
  split.
  - apply (Rmult_le_reg_r (IZR (wcount l))); [exact Hc'|].
    unfold Rdiv. rewrite Rmult_assoc, Rinv_l by lra. lra.
  - apply (Rmult_le_reg_r (IZR (wcount l))); [exact Hc'|].
    unfold Rdiv. rewrite Rmult_assoc, Rinv_l by lra. lra.
Qed.

(** X10.  A run of updates raises exactly when the running count comes
    to zero at some call (as a first update with weight zero does); the
    only exception is the ZeroDivisionError, and a run that does not raise
    ends with the count increased by the total weight. *)
Theorem meter_raises_iff (self : meter) (calls : list (ext * Z)) :
  (snd (updates self calls) = None <->
     forall pre post, calls = pre ++ post -> pre <> [] ->
       (count self + weights pre <> 0)%Z) /\
  (snd (updates self calls) = None \/
   snd (updates self calls) = Some ZeroDivisionError) /\
  (snd (updates self calls) = None ->
     count (fst (updates self calls)) = (count self + weights calls)%Z).
Proof.
  revert self. induction calls as [|[v n] rest IH]; intros self.
  - simpl. split; [|split].
    + split; [|reflexivity]. intros _ pre post E Hne.
      destruct pre; [contradiction | discriminate E].
    + now left.
    + intros _. lia.
  - cbn [updates]. unfold update. cbv zeta.
    destruct (Z.eqb_spec (count self + n) 0) as [E|E].
    + cbn [snd fst]. split; [|split].
      * split; [discriminate|]. intros H. exfalso.
        apply (H [(v, n)] rest eq_refl); [discriminate|].
        cbn [weights fold_right snd]. lia.
      * now right.
      * discriminate.
    + specialize (IH (mkMeter v
          (ediv (eadd (sum self) (emul v (Fin (IZR n)))) (Fin (IZR (count self + n))))
          (eadd (sum self) (emul v (Fin (IZR n)))) (count self + n))).
      cbn [count] in IH. destruct IH as (IH1 & IH2 & IH3).
      split; [|split].
      * rewrite IH1. split.
        -- intros H pre post Epre Hne.
           destruct pre as [|c pre]; [contradiction|].
           injection Epre as <- Erest.
           change (weights ((v, n) :: pre)) with (n + weights pre)%Z.
           destruct pre as [|c' pre'].
           ++ cbn [weights fold_right]. lia.
           ++ specialize (H (c' :: pre') post Erest ltac:(discriminate)). lia.
        -- intros H pre post Epre Hne.
           specialize (H ((v, n) :: pre) post).
           change (weights ((v, n) :: pre)) with (n + weights pre)%Z in H.
           assert (count self + (n + weights pre) <> 0)%Z.
           { apply H; [now rewrite Epre | discriminate]. }
           lia.
      * exact IH2.
      * intros H. rewrite (IH3 H).
        change (weights ((v, n) :: rest)) with (n + weights rest)%Z. lia.
Qed.

End MeterFacts.

Lemma meter_weighted_mean_witness :
  [(2, 1%Z); (4, 3%Z)] <> [] /\
  Forall (fun vn : R * Z => (0 < snd vn)%Z) [(2, 1%Z); (4, 3%Z)] /\
  Forall (fun vn : R * Z => 0 <= fst vn <= 100) [(2, 1%Z); (4, 3%Z)] /\
  exists s a,
    AverageMeter.updates AverageMeter.reset (finite_calls [(2, 1%Z); (4, 3%Z)])
    = (AverageMeter.mkMeter (Fin (fst (last [(2, 1%Z); (4, 3%Z)] (0, 0%Z))))
         (Fin a) (Fin s) (wcount [(2, 1%Z); (4, 3%Z)]), None) /\
    s = wsum [(2, 1%Z); (4, 3%Z)] /\
    a = wsum [(2, 1%Z); (4, 3%Z)] / IZR (wcount [(2, 1%Z); (4, 3%Z)]) /\
    0 <= a <= 100.
Proof.
  assert (Hne : [(2, 1%Z); (4, 3%Z)] <> ([] : list (R * Z))) by discriminate.
  assert (Hpos : Forall (fun vn : R * Z => (0 < snd vn)%Z) [(2, 1%Z); (4, 3%Z)])
    by (repeat constructor).
  assert (Hb : Forall (fun vn : R * Z => 0 <= fst vn <= 100) [(2, 1%Z); (4, 3%Z)])
    by (repeat constructor; simpl; lra).
  split; [exact Hne|]. split; [exact Hpos|]. split; [exact Hb|].
  exact (@meter_weighted_mean [(2, 1%Z); (4, 3%Z)] (0, 0%Z) 0 100 Hne Hpos Hb).
Defined.

(** ** The step without privacy *)

Section PlainStepFacts.

Variable opt_state : Type.
Variable optimizer_step :
  opt_state -> Vectorizer.model ext -> opt_state * Vectorizer.model ext.

Lemma view_col_fin (g : list R) :
  view_col (map Fin g) = of_reals 1 (map (fun x => [x]) g).
Proof. unfold view_col, of_reals. now rewrite !map_map. Qed.

Lemma rcol_singletons (X : Type) (f : X -> R) (l : list X) :
  rcol 0 (map (fun x => [f x]) l) = map f l.
Proof. unfold rcol. rewrite map_map. reflexivity. Qed.

Lemma flatten_singletons (X : Type) (f : X -> R) (l : list X) :
  flatten (of_reals 1 (map (fun x => [f x]) l)) = map Fin (map f l).
Proof.
  unfold flatten, of_reals. cbn [mrows]. rewrite !map_map.
  induction l as [|x l IH]; [reflexivity|]. simpl in *. f_equal. exact IH.
Qed.

(** The column that [P_SGD] hands to [update_grad]: the combination of the
    basis rows whose coefficients are the inner products of the gradient
    with them. *)
Lemma projected_gradient (d : nat) (rows : list (list R)) (g : list R) :
  Forall (fun r => length r = d) rows ->
  length g = d ->
  exists gk grad_proj,
    matmul (of_reals d rows) (view_col (map Fin g)) = Ok gk /\
    matmul (transpose (of_reals d rows)) gk = Ok grad_proj /\
    flatten grad_proj = map Fin (lincomb d (map (rdot g) rows) rows).
Proof.
  intros Hwf Hg.
  rewrite view_col_fin.
  rewrite matmul_fin by now rewrite length_map.
  cbn [seq map].
  rewrite (map_ext (fun a => [rdot a (rcol 0 (map (fun x => [x]) g))])
             (fun a => [rdot a g]))
    by (intros a; now rewrite (rcol_singletons (fun x => x)), map_id).
  eexists. eexists. split; [reflexivity|].
  rewrite transpose_fin.
  rewrite matmul_fin by now rewrite length_map.
  split; [reflexivity|].
  cbn [seq map]. rewrite (rcol_singletons (fun a => rdot a g)).
  rewrite map_map.
  rewrite (flatten_singletons
             (fun j => rdot (rcol j rows) (map (fun a => rdot a g) rows))).
  f_equal.
  rewrite <- columns_lincomb by (try assumption; now rewrite length_map).
  apply map_ext. intros j. rewrite rdot_comm. f_equal.
  apply map_ext. intros a. apply rdot_comm.
Qed.

(** X11.  [P_SGD] writes the orthogonal projection of the gradient: for a
    basis of finite rows of length [d], a finite gradient of length [d]
    and a model whose gradients exist and fit, nothing raises and the
    optimizer runs on the model that holds the written vector; in exact
    arithmetic (the rounding of floats is not modelled) that vector lies
    in the span of the basis rows, and when the rows are orthonormal it
    has the same inner products with the basis rows as the gradient, and
    it is the gradient itself when that lies in the span. *)
Theorem P_SGD_projects (gen : generator) (d : nat) (rows : list (list R))
    (m : Vectorizer.model ext) (opt : opt_state) (g : list R) :
  Forall (fun r => length r = d) rows ->
  length g = d ->
  Vectorizer.grads_allocated m ->
  (Vectorizer.total_numel m <= d)%nat ->
  exists p m',
    in_row_span d rows p /\
    Vectorizer.update_grad m (map Fin p) = (m', None) /\
    P_SGD optimizer_step (mkGlobals (of_reals d rows) gen) m opt (map Fin g)
    = (None,
       mkState (snd (optimizer_step opt m')) (fst (optimizer_step opt m'))
         (mkGlobals (of_reals d rows) gen)) /\
    (orthonormal_rows rows ->
       map (rdot p) rows = map (rdot g) rows /\
       (in_row_span d rows g -> p = g)).
Proof.
  intros Hwf Hg Ha Htot.
  destruct (@projected_gradient d rows g Hwf Hg) as (gk & gp & Egk & Egp & Ef).
  set (w := map (rdot g) rows) in *.
  assert (Hw : length w = length rows) by apply length_map.
  destruct (@update_grad_from_enough ext m (map Fin (lincomb d w rows)) 0 Ha)
    as (m' & vs & Hu & _).
  { rewrite length_map, lincomb_length by exact Hwf. simpl. lia. }
  exists (lincomb d w rows), m'.
  split; [now exists w|]. split; [exact Hu|]. split.
  - unfold P_SGD. cbv zeta. cbn [P]. rewrite Egk, Egp, Ef.
    change (Vectorizer.update_grad m (map Fin (lincomb d w rows)))
      with (Vectorizer.update_grad_from m (map Fin (lincomb d w rows)) 0).
    rewrite Hu. destruct (optimizer_step opt m') as [o m'']. reflexivity.
  - intros Hon. split.
    + now apply project_lincomb.
    + intros (a & Hla & ->). unfold w.
      now rewrite project_lincomb.
Qed.

(** X12.  [P_SGD] checks its gradient only through the first product: a
    gradient whose length is not the width of the basis makes [torch.mm]
    raise, and model, optimizer and globals are as they were. *)
Theorem P_SGD_wrong_length (G : globals) (m : Vectorizer.model ext)
    (opt : opt_state) (grad : list ext) :
  length grad <> ncols (P G) ->
  P_SGD optimizer_step G m opt grad
  = (Some RuntimeError_matmul, mkState m opt G).
Proof.
  intros H. unfold P_SGD. cbv zeta.
  rewrite matmul_err; [reflexivity|].
  unfold nrows, view_col. cbn [mrows]. rewrite length_map.
  intros E. apply H. now rewrite E.
Qed.

End PlainStepFacts.

Lemma P_SGD_projects_witness :
  Forall (fun r => length r = 2%nat) Examples.basis_rows /\
  length [3; 4] = 2%nat /\
  Vectorizer.grads_allocated Examples.model1 /\
  (Vectorizer.total_numel Examples.model1 <= 2)%nat /\
  exists p m',
    in_row_span 2 Examples.basis_rows p /\
    Vectorizer.update_grad Examples.model1 (map Fin p) = (m', None) /\
    P_SGD Examples.idle_step (mkGlobals (of_reals 2 Examples.basis_rows) Examples.gen_ones)
      Examples.model1 tt (map Fin [3; 4])
    = (None,
       mkState (snd (Examples.idle_step tt m')) (fst (Examples.idle_step tt m'))
         (mkGlobals (of_reals 2 Examples.basis_rows) Examples.gen_ones)) /\
    (orthonormal_rows Examples.basis_rows ->
       map (rdot p) Examples.basis_rows = map (rdot [3; 4]) Examples.basis_rows /\
       (in_row_span 2 Examples.basis_rows [3; 4] -> p = [3; 4])).
Proof.
  assert (Ht : (Vectorizer.total_numel Examples.model1 <= 2)%nat)
    by (vm_compute; lia).
  split; [exact basis_rows_wf|]. split; [reflexivity|].
  split; [exact model1_grads|]. split; [exact Ht|].
  exact (@P_SGD_projects unit Examples.idle_step Examples.gen_ones 2
           Examples.basis_rows Examples.model1 tt [3; 4]
           basis_rows_wf eq_refl model1_grads Ht).
Defined.

Lemma P_SGD_wrong_length_witness :
  length (map Fin [3; 4; 5]) <> ncols (of_reals 2 Examples.basis_rows) /\
  P_SGD Examples.idle_step (mkGlobals (of_reals 2 Examples.basis_rows) Examples.gen_ones)
    Examples.model1 tt (map Fin [3; 4; 5])
  = (Some RuntimeError_matmul,
     mkState Examples.model1 tt
       (mkGlobals (of_reals 2 Examples.basis_rows) Examples.gen_ones)).
Proof.
  assert (H : length (map Fin [3; 4; 5]) <> ncols (of_reals 2 Examples.basis_rows))
    by discriminate.
  split; [exact H|].
  exact (@P_SGD_wrong_length unit Examples.idle_step
           (mkGlobals (of_reals 2 Examples.basis_rows) Examples.gen_ones)
           Examples.model1 tt (map Fin [3; 4; 5]) H).
Defined.

(** ** Per-example gradients *)

Section BatchFacts.

Lemma nth_map_seq (X : Type) (f : nat -> X) (n i : nat) (d : X) :
  (i < n)%nat -> nth i (map f (seq 0 n)) d = f i.
Proof.
  intros Hi. rewrite (nth_indep _ d (f 0%nat)) by now rewrite length_map, length_seq.
  rewrite (map_nth f (seq 0 n) 0%nat i). now rewrite seq_nth.
Qed.

Lemma nth_error_map_seq (X : Type) (f : nat -> X) (n i : nat) :
  (i < n)%nat -> nth_error (map f (seq 0 n)) i = Some (f i).
Proof.
  intros Hi. rewrite nth_error_map, nth_error_seq.
  destruct (Nat.ltb_spec i n); [reflexivity | lia].
Qed.

Lemma reshape_rows_ok (t : batch_tensor) (c : nat) :
  batch_size t <> 0%nat ->
  length (bstorage t) = (batch_size t * c)%nat ->
  reshape_rows t = Ok (mkMatrix c (chunks c (batch_size t) (bstorage t))).
Proof.
  intros Hn Hlen. unfold reshape_rows. cbv zeta.
  destruct (Nat.eqb_spec (batch_size t) 0); [contradiction|].
  rewrite Hlen, (Nat.mul_comm (batch_size t) c).
  rewrite Nat.Div0.mod_mul, Nat.div_mul by exact Hn. reflexivity.
Qed.

(** The matrix that one parameter contributes. *)
Lemma grad_batch_rows_ok (n : nat) (m : list bparam) :
  n <> 0%nat ->
  Forall (batch_allocated n) m ->
  exists vec,
    grad_batch_rows m = Ok vec /\
    length vec = length m /\
    Forall (fun M => nrows M = n) vec /\
    list_sum (map ncols vec) = Vectorizer.total_numel (map bp_param m) /\
    forall i, (i < n)%nat ->
      map (fun M => nth i (mrows M) []) vec = map (example_grad i) m.
Proof.
  intros Hn H. induction H as [|bp m (t & Et & En & Es & El) _ IH].
  - exists []. repeat split; try constructor.
  - destruct IH as (vec & Ev & Elen & Hrows & Hsum & Hex).
    subst n.
    exists (mkMatrix (Vectorizer.numel (example_shape t))
              (chunks (Vectorizer.numel (example_shape t)) (batch_size t)
                 (bstorage t)) :: vec).
    cbn [grad_batch_rows]. rewrite Et, (@reshape_rows_ok t _ Hn El).
    cbn [bind]. rewrite Ev. cbn [bind].
    split; [reflexivity|]. split; [simpl; now rewrite Elen|].
    split.
    { constructor; [|exact Hrows]. unfold nrows, chunks. cbn [mrows].
      now rewrite length_map, length_seq. }
    split.
    { cbn [map list_sum fold_right ncols]. unfold Vectorizer.total_numel in *.
      cbn [map list_sum fold_right]. rewrite <- Es.
      f_equal. exact Hsum. }
    intros i Hi. cbn [map mrows]. rewrite (Hex i Hi). f_equal.
    unfold example_grad, chunks. rewrite Et.
    now apply nth_map_seq.
Qed.

Lemma cat_dim1_same_rows (n : nat) (vec : list matrix) :
  vec <> [] ->
  Forall (fun M => nrows M = n) vec ->
  cat_dim1 vec
  = Ok (mkMatrix (list_sum (map ncols vec))
          (map (fun i => concat (map (fun M => nth i (mrows M) []) vec))
               (seq 0 n))).
Proof.
  intros Hne H. destruct vec as [|M0 vec]; [contradiction|].
  inversion H as [|? ? H0 Hrest]; subst. unfold cat_dim1.
  assert (Hall : forallb (fun M => (nrows M =? nrows M0)%nat) vec = true).
  { apply forallb_forall. intros M HM. rewrite Forall_forall in Hrest.
    apply Nat.eqb_eq. now apply Hrest. }
  now rewrite Hall.
Qed.

(** The shape of the flattened per-example gradients. *)
Lemma get_model_grad_vec_batch_shape (n : nat) (m : list bparam) :
  n <> 0%nat ->
  m <> [] ->
  Forall (batch_allocated n) m ->
  exists G,
    get_model_grad_vec_batch m = Ok G /\
    nrows G = n /\
    ncols G = Vectorizer.total_numel (map bp_param m).
Proof.
  intros Hn Hne H.
  destruct (@grad_batch_rows_ok n m Hn H) as (vec & Ev & Elen & Hrows & Hsum & _).
  unfold get_model_grad_vec_batch. rewrite Ev. cbn [bind].
  rewrite (@cat_dim1_same_rows n vec).
  - eexists. split; [reflexivity|]. split; [|exact Hsum].
    unfold nrows. cbn [mrows]. now rewrite length_map, length_seq.
  - intros E. subst vec. destruct m; [contradiction | discriminate Elen].
  - exact Hrows.
Qed.

(** X13.  After a backward pass over [n > 0] examples on a model with at
    least one parameter, [get_model_grad_vec_batch] returns a matrix of
    [n] rows and [total_numel] columns whose row [i] is the concatenation,
    in parameter order, of the flattened gradients of example [i]: the
    column layout of the basis and of [update_grad]. *)
Theorem grad_batch_layout (n : nat) (m : list bparam) :
  n <> 0%nat ->
  m <> [] ->
  Forall (batch_allocated n) m ->
  exists G,
    get_model_grad_vec_batch m = Ok G /\
    nrows G = n /\
    ncols G = Vectorizer.total_numel (map bp_param m) /\
    forall i, (i < n)%nat ->
      nth_error (mrows G) i = Some (concat (map (example_grad i) m)).
Proof.
  intros Hn Hne H.
  destruct (@grad_batch_rows_ok n m Hn H) as (vec & Ev & Elen & Hrows & Hsum & Hex).
  unfold get_model_grad_vec_batch. rewrite Ev. cbn [bind].
  rewrite (@cat_dim1_same_rows n vec).
  - eexists. split; [reflexivity|].
    split; [unfold nrows; cbn [mrows]; now rewrite length_map, length_seq|].
    split; [exact Hsum|].
    intros i Hi. cbn [mrows].
    rewrite nth_error_map_seq by exact Hi. now rewrite (Hex i Hi).
  - intros E. subst vec. destruct m; [contradiction | discriminate Elen].
  - exact Hrows.
Qed.

(** X14.  An empty batch does not get past the flattening: when the first
    parameter holds a [grad_batch] for zero examples,
    [get_model_grad_vec_batch] raises in [reshape(0, -1)]; and a first
    parameter without the attribute raises the AttributeError. *)
Theorem grad_batch_empty (bp : bparam) (rest : list bparam) :
  (forall t, grad_batch bp = Some t -> batch_size t = 0%nat ->
     get_model_grad_vec_batch (bp :: rest) = Err RuntimeError_reshape) /\
  (grad_batch bp = None ->
     get_model_grad_vec_batch (bp :: rest) = Err AttributeError_NoneType).
Proof.
  split.
  - intros t Et En. unfold get_model_grad_vec_batch. cbn [grad_batch_rows].
    rewrite Et. unfold reshape_rows. cbv zeta. rewrite En. reflexivity.
  - intros E. unfold get_model_grad_vec_batch. cbn [grad_batch_rows].
    now rewrite E.
Qed.

End BatchFacts.

(** ** More on the step *)

Section StepMore.

Variable opt_state : Type.
Variable optimizer_step :
  opt_state -> Vectorizer.model ext -> opt_state * Vectorizer.model ext.

Implicit Types (G : globals) (model : Vectorizer.model ext) (grad : matrix).

(** A step on a non-empty batch of the right width whose standard
    deviation passes the check, stage by stage, up to [update_grad]. *)
Lemma step_trace G model (opt : opt_state) grad (sigma clip : ext) :
  ncols grad = ncols (P G) ->
  nrows grad <> 0%nat ->
  egeb (ediv (emul sigma clip) (Fin (INR (nrows grad)))) (Fin 0) = true ->
  exists E clipped s1 s2 N,
    project (P G) grad = Ok E /\
    norms_stat (norm_dim1 E) = Ok s1 /\
    fst (clip_column E clip false) = Some clipped /\
    norms_stat (norm_dim1 clipped) = Ok s2 /\
    reconstruct (P G)
      (view_row
         (vadd (map (fun s => ediv s (Fin (INR (nrows grad)))) (sum_dim0 clipped))
               (map (fun zi => eadd (Fin 0)
                       (emul (ediv (emul sigma clip) (Fin (INR (nrows grad))))
                             (Fin zi)))
                    (fst (randn (default_generator G) (nrows (P G)))))))
      = Ok N /\
    length (flatten N) = ncols (P G) /\
    P_SGD_DP optimizer_step G model opt grad sigma clip
    = match Vectorizer.update_grad model (flatten N) with
      | (model', Some e) =>
          (Err e,
           mkState model' opt
             (mkGlobals (P G) (snd (randn (default_generator G) (nrows (P G))))))
      | (model', None) =>
          (Ok (s1, s2),
           mkState (snd (optimizer_step opt model'))
             (fst (optimizer_step opt model'))
             (mkGlobals (P G) (snd (randn (default_generator G) (nrows (P G))))))
      end.
Proof.
  intros Hw Hn Hstd.
  destruct (step_prefix G grad clip Hw Hn)
    as (E & clipped & e & s1 & s2 & HE & HrE & He & Hs1 & Hc & Hs2 & Hlen).
  set (theta := map (fun s => ediv s (Fin (INR (nrows grad)))) (sum_dim0 clipped)).
  assert (Hth : length theta = nrows (P G))
    by (unfold theta; now rewrite length_map).
  set (noise := map (fun zi => eadd (Fin 0)
                 (emul (ediv (emul sigma clip) (Fin (INR (nrows grad)))) (Fin zi)))
                 (fst (randn (default_generator G) (nrows (P G))))).
  assert (Hno : length noise = nrows (P G)).
  { unfold noise, randn. simpl. now rewrite !length_map, length_seq. }
  destruct (reconstruct_row_ok (P G) (vadd theta noise)) as (N & HN & HlN).
  { rewrite length_vadd, Hth, Hno. apply Nat.min_id. }
  exists E, clipped, s1, s2, N.
  split; [exact HE|]. split; [exact Hs1|]. split; [exact Hc|].
  split; [exact Hs2|]. split; [exact HN|]. split; [exact HlN|].
  unfold P_SGD_DP. cbv zeta.
  change (matmul grad (transpose (P G))) with (project (P G) grad).
  rewrite HE, He, Hs1, Hc, Hs2, HrE.
  fold theta.
  rewrite add_theta_noise_ok by assumption.
  rewrite Hth. fold noise.
  change (matmul (view_row (vadd theta noise)) (P G))
    with (reconstruct (P G) (view_row (vadd theta noise))).
  rewrite HN.
  destruct (Vectorizer.update_grad model (flatten N)) as [model' [e'|]];
    [reflexivity|].
  destruct (optimizer_step opt model') as [o m'']. reflexivity.
Qed.

(** X15.  A step is not atomic: when the parameters hold more elements
    than the basis has columns, the step raises in [update_grad] (the
    [reshape] error) only after the noise was drawn -- the global
    generator is left advanced by one variate per basis row, the
    optimizer has not run, and no statistics are returned. *)
Theorem step_model_too_large G model (opt : opt_state) grad (sigma c : R) :
  ncols grad = ncols (P G) ->
  nrows grad <> 0%nat ->
  Vectorizer.grads_allocated model ->
  (ncols (P G) < Vectorizer.total_numel model)%nat ->
  0 <= sigma * c ->
  exists model',
    P_SGD_DP optimizer_step G model opt grad (Fin sigma) (Fin c)
    = (Err RuntimeError_reshape,
       mkState model' opt
         (mkGlobals (P G) (snd (randn (default_generator G) (nrows (P G)))))) /\
    map (@Vectorizer.data ext) model' = map (@Vectorizer.data ext) model.
Proof.
  intros Hw Hn Ha Hbig Hs.
  destruct (@step_trace G model opt grad (Fin sigma) (Fin c) Hw Hn)
    as (E & cl & s1 & s2 & N & _ & _ & _ & _ & _ & HlN & Hrun).
  { rewrite std_finite by exact Hn. apply egeb_fin_zero. now apply div_nonneg. }
  pose proof (@update_grad_from_short ext model (flatten N) 0 Ha) as Hshort.
  pose proof (@update_grad_from_frame ext model (flatten N) 0) as (_ & Hd & _).
  unfold Vectorizer.update_grad in Hrun.
  destruct (Vectorizer.update_grad_from model (flatten N) 0) as [model' r].
  simpl in Hshort, Hd. rewrite Hshort in Hrun by (simpl; lia).
  exists model'. split; [exact Hrun | exact Hd].
Qed.

(** X16.  One iteration of [train], from the per-example gradients to the
    step: after a backward pass over [n > 0] examples the flattening
    succeeds, and the step that receives its result completes when the
    basis has as many columns as the parameters have elements; when it
    has not, the first product raises and model, optimizer and generator
    are as they were. *)
Theorem train_step_width G (m : list bparam) (opt : opt_state) (n : nat)
    (sigma c : R) :
  n <> 0%nat ->
  m <> [] ->
  Forall (batch_allocated n) m ->
  Vectorizer.grads_allocated (map bp_param m) ->
  0 <= sigma * c ->
  exists gk,
    get_model_grad_vec_batch m = Ok gk /\
    (Vectorizer.total_numel (map bp_param m) = ncols (P G) ->
       exists stats out,
         P_SGD_DP optimizer_step G (map bp_param m) opt gk (Fin sigma) (Fin c)
         = (Ok stats, out)) /\
    (Vectorizer.total_numel (map bp_param m) <> ncols (P G) ->
       P_SGD_DP optimizer_step G (map bp_param m) opt gk (Fin sigma) (Fin c)
       = (Err RuntimeError_matmul, mkState (map bp_param m) opt G)).
Proof.
  intros Hn Hne Hb Ha Hs.
  destruct (@get_model_grad_vec_batch_shape n m Hn Hne Hb)
    as (gk & Egk & Hrows & Hcols).
  exists gk. split; [exact Egk|]. split.
  - intros Hw.
    destruct (@step_runs _ optimizer_step G (map bp_param m) opt gk
                (Fin sigma) (Fin c))
      as (E & cl & N & m' & stats & _ & _ & _ & _ & Hrun).
    + now rewrite Hcols.
    + now rewrite Hrows.
    + exact Ha.
    + lia.
    + rewrite Hrows, std_finite by exact Hn. apply egeb_fin_zero.
      now apply div_nonneg.
    + eexists _, _. exact Hrun.
  - intros Hw. apply step_bad_width. now rewrite Hcols.
Qed.

(** X20.  An infinite clip bound does not switch the noise off: with the
    multiplier zero and the bound [+inf] the standard deviation
    [0 * inf / n] is NaN, [torch.normal] refuses it, and the step raises
    after clipping, leaving model, optimizer and generator as they
    were. *)
Theorem step_infinite_clip G model (opt : opt_state) grad :
  ncols grad = ncols (P G) ->
  nrows grad <> 0%nat ->
  P_SGD_DP optimizer_step G model opt grad (Fin 0) PInf
  = (Err RuntimeError_normal_std, mkState model opt G).
Proof.
  intros Hw Hn. apply step_bad_std; [exact Hw | exact Hn |].
  cbn [emul]. unfold inf_times.
  destruct (Rlt_dec 0 0) as [H|_]; [lra|]. reflexivity.
Qed.

End StepMore.

(** ** The statistics of the norms *)

Section StatsFacts.

Lemma fold_emax_between (lo hi : R) (l : list ext) (x : ext) :
  fin_between lo hi x ->
  Forall (fin_between lo hi) l ->
  fin_between lo hi (fold_left emax l x).
Proof.
  intros Hx Hl. revert x Hx. induction Hl as [|y l Hy _ IH]; intros x Hx;
    [exact Hx|].
  simpl. apply IH.
  destruct Hx as (a & -> & Ha), Hy as (b & -> & Hb).
  unfold emax. simpl. destruct (Rlt_dec a b); [now exists b | now exists a].
Qed.

Lemma insert_sorted_Forall (Q : ext -> Prop) (x : ext) (l : list ext) :
  Q x -> Forall Q l -> Forall Q (insert_sorted x l).
Proof.
  intros Hx Hl. induction Hl as [|y l Hy Hl IH]; simpl.
  - now constructor.
  - destruct (eleb x y); repeat constructor; assumption.
Qed.

Lemma insert_sorted_length (x : ext) (l : list ext) :
  length (insert_sorted x l) = S (length l).
Proof.
  induction l as [|y l IH]; [reflexivity|].
  simpl. destruct (eleb x y); simpl; [reflexivity | now rewrite IH].
Qed.

Lemma sort_asc_Forall (Q : ext -> Prop) (l : list ext) :
  Forall Q l -> Forall Q (sort_asc l).
Proof.
  induction 1 as [|x l Hx _ IH]; [constructor|].
  simpl. now apply insert_sorted_Forall.
Qed.

Lemma sort_asc_length (l : list ext) : length (sort_asc l) = length l.
Proof.
  induction l as [|x l IH]; [reflexivity|].
  simpl. now rewrite insert_sorted_length, IH.
Qed.

Lemma no_nan_between (lo hi : R) (l : list ext) :
  Forall (fin_between lo hi) l -> existsb is_nan l = false.
Proof.
  induction 1 as [|x l (a & -> & _) _ IH]; [reflexivity|]. simpl. exact IH.
Qed.

Lemma tsum_between (lo hi : R) (l : list ext) :
  Forall (fin_between lo hi) l ->
  exists s, tsum l = Fin s /\
            INR (length l) * lo <= s <= INR (length l) * hi.
Proof.
  induction 1 as [|x l (a & -> & Ha) _ (s & Es & Hs)].
  - exists 0. split; [reflexivity|]. simpl. lra.
  - exists (a + s). unfold tsum in *. simpl fold_right. rewrite Es.
    split; [reflexivity|].
    change (length (Fin a :: l)) with (S (length l)). rewrite S_INR. lra.
Qed.

(** The three statistics of finite values between [lo] and [hi] lie
    between [lo] and [hi]. *)
Lemma norms_stat_between (lo hi : R) (v : list ext) :
  v <> [] ->
  Forall (fin_between lo hi) v ->
  exists a b md,
    norms_stat v = Ok [Fin a; Fin b; Fin md] /\
    lo <= a <= hi /\ lo <= b <= hi /\ lo <= md <= hi.
Proof.
  intros Hne Hv. destruct v as [|x v]; [contradiction|].
  inversion Hv as [|? ? Hx Hrest]; subst.
  destruct (fold_emax_between Hx Hrest) as (b & Eb & Hb).
  destruct (tsum_between Hv) as (s & Es & Hs).
  assert (Hmd : fin_between lo hi
                  (nth ((length (x :: v) - 1) / 2) (sort_asc (x :: v)) NaN)).
  { pose proof (sort_asc_Forall Hv) as Hsorted.
    rewrite Forall_forall in Hsorted. apply Hsorted. apply nth_In.
    rewrite sort_asc_length.
    apply Nat.le_lt_trans with (length (x :: v) - 1)%nat.
    - apply Nat.Div0.div_le_upper_bound. simpl. lia.
    - simpl. lia. }
  destruct Hmd as (md & Emd & Hmd).
  assert (Hn : 0 < INR (length (x :: v))) by (apply lt_0_INR; simpl; lia).
  exists (s / INR (length (x :: v))), b, md.
  split.
  - unfold norms_stat, tmax, tmedian, bind.
    rewrite (no_nan_between Hv), Eb, Emd. unfold tmean. rewrite Es.
    cbn [ediv]. destruct (Req_dec_T (INR (length (x :: v))) 0); [lra|].
    reflexivity.
  - split; [|split; assumption].
    split.
    + apply (Rmult_le_reg_r (INR (length (x :: v)))); [exact Hn|].
      unfold Rdiv. rewrite Rmult_assoc, Rinv_l by lra. lra.
    + apply (Rmult_le_reg_r (INR (length (x :: v)))); [exact Hn|].
      unfold Rdiv. rewrite Rmult_assoc, Rinv_l by lra. lra.
Qed.

(** Projecting a batch of finite rows: every row becomes its inner
    products with the rows of the basis. *)
Lemma project_rows (d : nat) (rows grads : list (list R)) :
  Forall (fun r => length r = d) rows ->
  project (of_reals d rows) (of_reals d grads)
  = Ok (of_reals (length rows) (map (fun g => map (rdot g) rows) grads)).
Proof.
  intros Hwf. unfold project. rewrite transpose_fin.
  rewrite matmul_fin by now rewrite length_map, length_seq.
  f_equal. unfold of_reals. f_equal. f_equal.
  apply map_ext. intros g.
  rewrite <- (map_nth_seq (rdot g) rows []).
  apply map_ext_in. intros i Hi. apply in_seq in Hi. f_equal.
  apply rcol_transposed. apply rows_nth_length; [exact Hwf | lia].
Qed.

Lemma norm_dim1_fin (k : nat) (rows : list (list R)) :
  norm_dim1 (of_reals k rows) = map Fin (map rnorm rows).
Proof.
  unfold norm_dim1, of_reals. cbn [mrows]. rewrite !map_map.
  apply map_ext. apply row_norm_fin.
Qed.

End StatsFacts.

Section StatsClaim.

Variable opt_state : Type.
Variable optimizer_step :
  opt_state -> Vectorizer.model ext -> opt_state * Vectorizer.model ext.

(** X17.  In exact arithmetic (the rounding of floats is not modelled),
    the statistics a step reports after clipping do not exceed the clip
    bound: for a basis and a non-empty batch of finite values, a bound
    [c > 0], a multiplier [sigma >= 0] and a model whose gradients exist
    and fit, the step returns, and the mean, the maximum and the median of
    the clipped norms are finite values between [0] and [c]. *)
Theorem step_clipped_stats_bounded (gen : generator) (d : nat)
    (rows grads : list (list R)) (m : Vectorizer.model ext) (opt : opt_state)
    (sigma c : R) :
  Forall (fun r => length r = d) rows ->
  grads <> [] ->
  Vectorizer.grads_allocated m ->
  (Vectorizer.total_numel m <= d)%nat ->
  0 < c ->
  0 <= sigma ->
  exists org a b md out,
    P_SGD_DP optimizer_step (mkGlobals (of_reals d rows) gen) m opt
      (of_reals d grads) (Fin sigma) (Fin c)
    = (Ok (org, [Fin a; Fin b; Fin md]), out) /\
    0 <= a <= c /\ 0 <= b <= c /\ 0 <= md <= c.
Proof.
  intros Hwf Hne Ha Htot Hc Hs.
  set (G := mkGlobals (of_reals d rows) gen).
  assert (Hn : nrows (of_reals d grads) <> 0%nat).
  { unfold nrows, of_reals. cbn [mrows]. rewrite length_map.
    destruct grads; [contradiction | discriminate]. }
  destruct (@step_trace _ optimizer_step G m opt (of_reals d grads)
              (Fin sigma) (Fin c) eq_refl Hn)
    as (E & cl & s1 & s2 & N & HE & Hs1 & Hcl & Hs2 & HN & HlN & Hrun).
  { rewrite std_finite by exact Hn. apply egeb_fin_zero.
    apply div_nonneg; [exact Hn | nra]. }
  cbn [P G] in HE. rewrite project_rows in HE by exact Hwf.
  injection HE as <-.
  rewrite functional_real in Hcl by exact Hc. injection Hcl as <-.
  rewrite norm_dim1_fin in Hs2.
  set (emb := map (fun g => map (rdot g) rows) grads) in *.
  set (emb' := map (fun r => map (fun x => x * clip_factor c r) r) emb) in *.
  destruct (@norms_stat_between 0 c (map Fin (map rnorm emb')))
    as (a & b & md & Est & Hab & Hbb & Hmb).
  { unfold emb', emb. destruct grads; [contradiction | discriminate]. }
  { apply Forall_forall. intros x Hx. apply in_map_iff in Hx.
    destruct Hx as (n & <- & Hin). apply in_map_iff in Hin.
    destruct Hin as (r' & <- & Hr'). unfold emb' in Hr'.
    apply in_map_iff in Hr'. destruct Hr' as (r & <- & Hr).
    exists (rnorm (map (fun x => x * clip_factor c r) r)).
    split; [reflexivity|]. split; [apply rnorm_nonneg | now apply clipped_row_norm]. }
  rewrite Est in Hs2. injection Hs2 as <-.
  destruct (@update_grad_from_enough ext m (flatten N) 0 Ha)
    as (m' & vs & Hu & _).
  { cbn [P G ncols of_reals] in HlN. simpl. lia. }
  unfold Vectorizer.update_grad in Hrun. rewrite Hu in Hrun.
  exists s1, a, b, md. eexists. split; [exact Hrun|]. now repeat split.
Qed.

End StatsClaim.

(** ** The step without noise and without clipping *)

Section Baseline.

Variable opt_state : Type.
Variable optimizer_step :
  opt_state -> Vectorizer.model ext -> opt_state * Vectorizer.model ext.

Lemma mean_dim0_fin (d : nat) (grads : list (list R)) :
  grads <> [] ->
  mean_dim0 (of_reals d grads)
  = map Fin (map (fun l => rsum (rcol l grads) / INR (length grads)) (seq 0 d)).
Proof.
  intros Hne. unfold mean_dim0. cbn [ncols of_reals]. rewrite map_map.
  apply map_ext. intros l.
  change (mkMatrix d (map (map Fin) grads)) with (of_reals d grads).
  rewrite col_fin. unfold tmean. rewrite tsum_fin, !length_map.
  unfold rcol at 2. rewrite length_map. cbn [ediv].
  destruct (Req_dec_T (INR (length grads)) 0) as [E|_]; [|reflexivity].
  exfalso. revert E. apply not_0_INR.
  destruct grads; [contradiction | discriminate].
Qed.

Lemma clip_factor_one (c : R) (r : list R) :
  rnorm r <= c -> map (fun x => x * clip_factor c r) r = r.
Proof.
  intros H. unfold clip_factor. destruct (Rle_dec (rnorm r) c); [|contradiction].
  rewrite <- (map_id r) at 2. apply map_ext. intros; ring.
Qed.

Lemma zero_noise (c : R) (n : nat) (zs : list R) :
  n <> 0%nat ->
  Forall (fun z => z = Fin 0)
    (map (fun zi => eadd (Fin 0)
            (emul (ediv (emul (Fin 0) (Fin c)) (Fin (INR n))) (Fin zi))) zs).
Proof.
  intros Hn. rewrite std_finite by exact Hn. apply Forall_forall.
  intros x Hx. apply in_map_iff in Hx. destruct Hx as (z & <- & _).
  simpl. f_equal. unfold Rdiv. ring.
Qed.

(** The embedding of the mean gradient is the mean of the embeddings. *)
Lemma embedding_of_mean (d : nat) (rows grads : list (list R)) :
  Forall (fun g => length g = d) grads ->
  grads <> [] ->
  map (fun j => rsum (rcol j (map (fun g => map (rdot g) rows) grads))
                / INR (length (map (fun g => map (rdot g) rows) grads)))
      (seq 0 (length rows))
  = map (rdot (map (fun l => rsum (rcol l grads) / INR (length grads)) (seq 0 d)))
        rows.
Proof.
  intros Hg Hne.
  rewrite <- (map_nth_seq
                (rdot (map (fun l => rsum (rcol l grads) / INR (length grads))
                         (seq 0 d))) rows []).
  apply map_ext_in. intros j Hj. apply in_seq in Hj.
  rewrite mean_as_lincomb by exact Hg.
  rewrite rdot_lincomb by exact Hg.
  replace (length grads)
    with (length (map (fun g => rdot g (nth j rows [])) grads)) at 2
    by apply length_map.
  rewrite rdot_repeat, length_map.
  unfold Rdiv. rewrite Rmult_comm. f_equal. f_equal.
  unfold rcol. rewrite map_map. apply map_ext. intros g.
  rewrite (nth_indep _ 0 (rdot g [])) by (rewrite length_map; lia).
  apply (map_nth (rdot g)).
Qed.

(** X18.  Without noise and with a bound that no embedding exceeds, the
    private step is the plain step on the mean gradient: for a basis and
    a non-empty batch of finite values with rows of length [d], the
    multiplier zero, a bound [c > 0] at least as large as the norm of
    every embedding, and a model whose gradients exist and fit,
    [P_SGD_DP] on the batch and [P_SGD] on [torch.mean(grad, dim=0)]
    leave the same model and the same optimizer behind. *)
Theorem private_step_baseline (gen : generator) (d : nat)
    (rows grads : list (list R)) (m : Vectorizer.model ext) (opt : opt_state)
    (c : R) :
  Forall (fun r => length r = d) rows ->
  Forall (fun g => length g = d) grads ->
  grads <> [] ->
  0 < c ->
  Forall (fun g => rnorm (map (rdot g) rows) <= c) grads ->
  Vectorizer.grads_allocated m ->
  (Vectorizer.total_numel m <= d)%nat ->
  exists stats model' opt' gen',
    P_SGD_DP optimizer_step (mkGlobals (of_reals d rows) gen) m opt
      (of_reals d grads) (Fin 0) (Fin c)
    = (Ok stats, mkState model' opt' (mkGlobals (of_reals d rows) gen')) /\
    P_SGD optimizer_step (mkGlobals (of_reals d rows) gen) m opt
      (mean_dim0 (of_reals d grads))
    = (None, mkState model' opt' (mkGlobals (of_reals d rows) gen)).
Proof.
  intros Hwf Hg Hne Hc Hfit Ha Htot.
  set (G := mkGlobals (of_reals d rows) gen).
  set (emb := map (fun g => map (rdot g) rows) grads).
  assert (Hlen : length (map (map Fin) grads) = length emb)
    by (unfold emb; now rewrite !length_map).
  assert (Hn : nrows (of_reals d grads) <> 0%nat).
  { unfold nrows, of_reals. cbn [mrows]. rewrite length_map.
    destruct grads; [contradiction | discriminate]. }
  assert (Hemb : emb <> []).
  { unfold emb. destruct grads; [contradiction | discriminate]. }
  destruct (@step_trace _ optimizer_step G m opt (of_reals d grads)
              (Fin 0) (Fin c) eq_refl Hn)
    as (E & cl & s1 & s2 & N & HE & _ & Hcl & _ & HN & HlN & Hrun).
  { rewrite std_finite by exact Hn. apply egeb_fin_zero.
    apply div_nonneg; [exact Hn | lra]. }
  cbn [P G] in HE. rewrite project_rows in HE by exact Hwf.
  injection HE as <-. fold emb in Hcl.
  rewrite functional_real in Hcl by exact Hc. injection Hcl as <-.
  assert (Eid : map (fun r => map (fun x => x * clip_factor c r) r) emb = emb).
  { rewrite <- (map_id emb) at 2. apply map_ext_in. intros r Hr.
    apply clip_factor_one. unfold emb in Hr. apply in_map_iff in Hr.
    destruct Hr as (g & <- & Hin). rewrite Forall_forall in Hfit. now apply Hfit. }
  rewrite Eid in HN.
  unfold nrows in HN. cbn [of_reals mrows P G] in HN. rewrite Hlen in HN.
  rewrite mean_theta_fin in HN by exact Hemb.
  rewrite vadd_zeros in HN.
  2:{ unfold randn. cbn [fst]. now rewrite !length_map, !length_seq. }
  2:{ rewrite <- Hlen. apply zero_noise.
      rewrite length_map. destruct grads; [contradiction | discriminate]. }
  unfold emb in HN at 1 2. rewrite (embedding_of_mean rows Hg Hne) in HN.
  set (gbar := map (fun l => rsum (rcol l grads) / INR (length grads)) (seq 0 d))
    in *.
  change (mkMatrix d (map (map Fin) rows)) with (of_reals d rows) in HN.
  rewrite reconstruct_row in HN by (try assumption; apply length_map).
  injection HN as <-.
  assert (Hflat : flatten (of_reals d [lincomb d (map (rdot gbar) rows) rows])
                  = map Fin (lincomb d (map (rdot gbar) rows) rows)).
  { unfold flatten, of_reals. cbn [mrows map concat]. apply app_nil_r. }
  rewrite Hflat in Hrun.
  destruct (@update_grad_from_enough ext m
              (map Fin (lincomb d (map (rdot gbar) rows) rows)) 0 Ha)
    as (m' & vs & Hu & _).
  { rewrite length_map, lincomb_length by exact Hwf. simpl. lia. }
  unfold Vectorizer.update_grad in Hrun. rewrite Hu in Hrun.
  exists (s1, s2), (snd (optimizer_step opt m')), (fst (optimizer_step opt m')).
  eexists. split; [exact Hrun|].
  assert (Hgb : length gbar = d) by (unfold gbar; now rewrite length_map, length_seq).
  destruct (@projected_gradient d rows gbar Hwf Hgb) as (gk & gp & Egk & Egp & Ef).
  unfold P_SGD. cbv zeta. cbn [P G].
  rewrite (mean_dim0_fin d Hne). fold gbar.
  rewrite Egk, Egp, Ef.
  change (Vectorizer.update_grad m (map Fin (lincomb d (map (rdot gbar) rows) rows)))
    with (Vectorizer.update_grad_from m
            (map Fin (lincomb d (map (rdot gbar) rows) rows)) 0).
  rewrite Hu. destruct (optimizer_step opt m') as [o m'']. reflexivity.
Qed.

End Baseline.

(** ** NaN through the step *)

Section NanFacts.

Variable opt_state : Type.
Variable optimizer_step :
  opt_state -> Vectorizer.model ext -> opt_state * Vectorizer.model ext.

Lemma eadd_nan_r (x : ext) : eadd x NaN = NaN.
Proof. now destruct x. Qed.

Lemma dot_nan (a b : list ext) (q : nat) :
  nth_error a q = Some NaN -> (q < length b)%nat -> dot a b = NaN.
Proof.
  unfold dot, tsum. revert b q.
  induction a as [|x a IH]; intros [|y b] q Hq Hlt; simpl in Hlt; try lia.
  - destruct q; discriminate Hq.
  - destruct q as [|q]; simpl in Hq.
    + injection Hq as ->. reflexivity.
    + simpl. rewrite (IH b q Hq) by lia. apply eadd_nan_r.
Qed.

Lemma map_const_seq (X : Type) (x : X) (s n : nat) :
  map (fun _ => x) (seq s n) = repeat x n.
Proof.
  revert s. induction n as [|n IH]; intros s; [reflexivity|].
  simpl. now rewrite IH.
Qed.

Lemma map_const_repeat (X Y : Type) (y : Y) (l : list X) :
  map (fun _ => y) l = repeat y (length l).
Proof. induction l as [|x l IH]; [reflexivity|]. simpl. now rewrite IH. Qed.

Lemma length_col (j : nat) (M : matrix) : length (col j M) = nrows M.
Proof. unfold col, nrows. apply length_map. Qed.

Lemma nth_error_repeat (X : Type) (x : X) (n i : nat) :
  (i < n)%nat -> nth_error (repeat x n) i = Some x.
Proof.
  revert i. induction n as [|n IH]; intros [|i] H; simpl; try lia;
    [reflexivity | apply IH; lia].
Qed.

(** A column of a matrix one of whose rows is all NaN holds a NaN. *)
Lemma col_nan (M : matrix) (i j k : nat) :
  nth_error (mrows M) i = Some (repeat NaN k) ->
  (j < k)%nat ->
  In NaN (col j M).
Proof.
  intros Hi Hj. unfold col. apply in_map_iff.
  exists (repeat NaN k). split.
  - apply nth_error_nth. now apply nth_error_repeat.
  - eapply nth_error_In. exact Hi.
Qed.

Lemma vadd_nan (n : nat) (b : list ext) :
  length b = n -> vadd (repeat NaN n) b = repeat NaN n.
Proof.
  revert b. induction n as [|n IH]; intros [|y b] H; try discriminate H;
    [reflexivity|].
  unfold vadd in *. simpl. f_equal. apply IH. now injection H.
Qed.

(** X19.  The step does not watch for NaN: when one entry of a
    well-shaped batch is NaN (and the basis has at least one row), the
    step raises nothing, returns its statistics, and hands the optimizer
    a model whose gradients were overwritten with NaN in every
    element. *)
Theorem step_propagates_nan (G : globals) (m : Vectorizer.model ext)
    (opt : opt_state) (grad : matrix) (sigma c : R) (i q : nat)
    (g : list ext) :
  ncols grad = ncols (P G) ->
  nth_error (mrows grad) i = Some g ->
  nth_error g q = Some NaN ->
  (q < ncols grad)%nat ->
  nrows (P G) <> 0%nat ->
  Vectorizer.grads_allocated m ->
  (Vectorizer.total_numel m <= ncols (P G))%nat ->
  0 <= sigma * c ->
  exists stats m',
    Vectorizer.update_grad m (repeat NaN (ncols (P G))) = (m', None) /\
    P_SGD_DP optimizer_step G m opt grad (Fin sigma) (Fin c)
    = (Ok stats,
       mkState (snd (optimizer_step opt m')) (fst (optimizer_step opt m'))
         (mkGlobals (P G) (snd (randn (default_generator G) (nrows (P G)))))).
Proof.
  intros Hw Hi Hq Hqd Hk Ha Htot Hs.
  set (k := nrows (P G)) in *. set (d := ncols (P G)) in *.
  assert (Hn : nrows grad <> 0%nat).
  { unfold nrows. intros E. apply length_zero_iff_nil in E.
    rewrite E in Hi. destruct i; discriminate Hi. }
  destruct (@step_trace _ optimizer_step G m opt grad (Fin sigma) (Fin c) Hw Hn)
    as (E & cl & s1 & s2 & N & HE & _ & Hcl & _ & HN & HlN & Hrun).
  { rewrite std_finite by exact Hn. apply egeb_fin_zero. now apply div_nonneg. }
  (* row [i] of the embedding is all NaN *)
  set (Erows := map (fun a => map (fun j => dot a (col j (transpose (P G))))
                                (seq 0 k)) (mrows grad)).
  assert (HE0 : project (P G) grad = Ok (mkMatrix k Erows)).
  { unfold project. rewrite matmul_ok by now rewrite nrows_transpose.
    reflexivity. }
  assert (EE : E = mkMatrix k Erows) by congruence. subst E.
  assert (Hrow : forall j, dot g (col j (transpose (P G))) = NaN).
  { intros j. apply (dot_nan _ _ Hq).
    rewrite length_col, nrows_transpose. fold d. now rewrite <- Hw. }
  assert (HEi : nth_error Erows i = Some (repeat NaN k)).
  { unfold Erows. rewrite (map_nth_error _ _ _ Hi). f_equal.
    rewrite (map_ext _ (fun _ => NaN)) by exact Hrow.
    apply map_const_seq. }
  (* so is row [i] of the clipped embedding *)
  set (clrows := map (fun r => map (fun x =>
                   emul x (clamp_max (ediv (Fin c) (row_norm r)) (Fin 1))) r)
                   Erows).
  assert (Hcl0 : fst (clip_column (mkMatrix k Erows) (Fin c) false)
                 = Some (mkMatrix k clrows)) by apply functional_rows.
  assert (Ecl : cl = mkMatrix k clrows) by congruence. subst cl.
  assert (Hnan : In NaN (repeat NaN k)).
  { destruct k; [contradiction | now left]. }
  assert (Hcli : nth_error clrows i = Some (repeat NaN k)).
  { unfold clrows. rewrite (map_nth_error _ _ _ HEi). f_equal.
    rewrite (functional_row_nan _ _ Hnan), map_const_repeat.
    now rewrite repeat_length. }
  (* every entry of the aggregate is NaN *)
  assert (Hsum : sum_dim0 (mkMatrix k clrows) = repeat NaN k).
  { unfold sum_dim0. cbn [ncols].
    rewrite <- (map_const_seq NaN 0 k). apply map_ext_in.
    intros j Hj. apply in_seq in Hj. apply tsum_nan.
    apply (@col_nan (mkMatrix k clrows) i j k Hcli). lia. }
  rewrite Hsum in HN.
  assert (Hth : map (fun s => ediv s (Fin (INR (nrows grad)))) (repeat NaN k)
                = repeat NaN k).
  { clear. induction k as [|k' IH]; [reflexivity|]. simpl. now rewrite IH. }
  rewrite Hth in HN.
  rewrite vadd_nan in HN
    by (unfold randn; cbn [fst]; now rewrite !length_map, length_seq).
  (* and so is every entry of the reconstruction *)
  assert (HN0 : reconstruct (P G) (view_row (repeat NaN k))
                = Ok (mkMatrix d
                       [map (fun j => dot (repeat NaN k) (col j (P G)))
                            (seq 0 d)])).
  { unfold reconstruct. rewrite matmul_ok by (cbn [view_row ncols]; apply repeat_length).
    reflexivity. }
  assert (EN : N = mkMatrix d
                 [map (fun j => dot (repeat NaN k) (col j (P G))) (seq 0 d)])
    by congruence.
  subst N.
  assert (Hflat : flatten
            (mkMatrix d [map (fun j => dot (repeat NaN k) (col j (P G))) (seq 0 d)])
          = repeat NaN d).
  { unfold flatten. cbn [mrows concat]. rewrite app_nil_r.
    rewrite <- (map_const_seq NaN 0 d). apply map_ext. intros j.
    apply (dot_nan _ _ (q := 0)).
    - destruct k; [contradiction | reflexivity].
    - rewrite length_col. fold k. lia. }
  rewrite Hflat in Hrun.
  destruct (@update_grad_from_enough ext m (repeat NaN d) 0 Ha)
    as (m' & vs & Hu & _).
  { rewrite repeat_length. simpl. lia. }
  unfold Vectorizer.update_grad in Hrun |- *. rewrite Hu in Hrun.
  exists (s1, s2), m'. split; [exact Hu | exact Hrun].
Qed.

End NanFacts.

(** ** Instances *)

Lemma two_params_allocated : Forall (batch_allocated 2) BatchExamples.two_params.
Proof.
  repeat constructor; eexists; repeat split; reflexivity.
Defined.

Lemma one_param_allocated : Forall (batch_allocated 2) BatchExamples.one_param.
Proof.
  repeat constructor; eexists; repeat split; reflexivity.
Defined.

Lemma grad_batch_layout_witness :
  2%nat <> 0%nat /\
  BatchExamples.two_params <> [] /\
  Forall (batch_allocated 2) BatchExamples.two_params /\
  exists G,
    get_model_grad_vec_batch BatchExamples.two_params = Ok G /\
    nrows G = 2%nat /\
    ncols G = Vectorizer.total_numel (map bp_param BatchExamples.two_params) /\
    forall i, (i < 2)%nat ->
      nth_error (mrows G) i
      = Some (concat (map (example_grad i) BatchExamples.two_params)).
Proof.
  assert (H2 : 2%nat <> 0%nat) by discriminate.
  assert (Hne : BatchExamples.two_params <> []) by discriminate.
  split; [exact H2|]. split; [exact Hne|]. split; [exact two_params_allocated|].
  exact (@grad_batch_layout 2 BatchExamples.two_params H2 Hne two_params_allocated).
Defined.

Lemma grad_batch_empty_witness :
  grad_batch BatchExamples.empty_pass = Some (mkBatch 0 [2%nat] []) /\
  batch_size (mkBatch 0 [2%nat] []) = 0%nat /\
  get_model_grad_vec_batch (BatchExamples.empty_pass :: BatchExamples.two_params)
    = Err RuntimeError_reshape /\
  grad_batch BatchExamples.unreached = None /\
  get_model_grad_vec_batch (BatchExamples.unreached :: BatchExamples.two_params)
    = Err AttributeError_NoneType.
Proof.
  split; [reflexivity|]. split; [reflexivity|]. split.
  - exact (proj1 (@grad_batch_empty BatchExamples.empty_pass BatchExamples.two_params)
             (mkBatch 0 [2%nat] []) eq_refl eq_refl).
  - split; [reflexivity|].
    exact (proj2 (@grad_batch_empty BatchExamples.unreached BatchExamples.two_params)
             eq_refl).
Defined.

Lemma step_model_too_large_witness :
  ncols Examples.batch1 = ncols Examples.basis1 /\
  nrows Examples.batch1 <> 0%nat /\
  Vectorizer.grads_allocated Examples.scenario_model /\
  (ncols Examples.basis1 < Vectorizer.total_numel Examples.scenario_model)%nat /\
  0 <= 1 * 1 /\
  exists model',
    P_SGD_DP Examples.idle_step (mkGlobals Examples.basis1 Examples.gen_ones)
      Examples.scenario_model tt Examples.batch1 (Fin 1) (Fin 1)
    = (Err RuntimeError_reshape,
       mkState model' tt
         (mkGlobals Examples.basis1 (snd (randn Examples.gen_ones 1)))) /\
    map (@Vectorizer.data ext) model'
    = map (@Vectorizer.data ext) Examples.scenario_model.
Proof.
  assert (Hn : nrows Examples.batch1 <> 0%nat) by discriminate.
  assert (Hb : (ncols Examples.basis1
                < Vectorizer.total_numel Examples.scenario_model)%nat)
    by (vm_compute; lia).
  assert (Hs : 0 <= 1 * 1) by lra.
  split; [reflexivity|]. split; [exact Hn|]. split; [exact scenario_model_grads|].
  split; [exact Hb|]. split; [exact Hs|].
  exact (@step_model_too_large unit Examples.idle_step
           (mkGlobals Examples.basis1 Examples.gen_ones) Examples.scenario_model
           tt Examples.batch1 1 1 eq_refl Hn scenario_model_grads Hb Hs).
Defined.

Lemma train_step_width_witness :
  2%nat <> 0%nat /\
  BatchExamples.one_param <> [] /\
  Forall (batch_allocated 2) BatchExamples.one_param /\
  Vectorizer.grads_allocated (map bp_param BatchExamples.one_param) /\
  0 <= 1 * 1 /\
  exists gk,
    get_model_grad_vec_batch BatchExamples.one_param = Ok gk /\
    (Vectorizer.total_numel (map bp_param BatchExamples.one_param)
       = ncols Examples.basis1 ->
     exists stats out,
       P_SGD_DP Examples.idle_step (mkGlobals Examples.basis1 Examples.gen_ones)
         (map bp_param BatchExamples.one_param) tt gk (Fin 1) (Fin 1)
       = (Ok stats, out)) /\
    (Vectorizer.total_numel (map bp_param BatchExamples.one_param)
       <> ncols Examples.basis1 ->
     P_SGD_DP Examples.idle_step (mkGlobals Examples.basis1 Examples.gen_ones)
       (map bp_param BatchExamples.one_param) tt gk (Fin 1) (Fin 1)
     = (Err RuntimeError_matmul,
        mkState (map bp_param BatchExamples.one_param) tt
          (mkGlobals Examples.basis1 Examples.gen_ones))).
Proof.
  assert (H2 : 2%nat <> 0%nat) by discriminate.
  assert (Hne : BatchExamples.one_param <> []) by discriminate.
  assert (Hs : 0 <= 1 * 1) by lra.
  split; [exact H2|]. split; [exact Hne|]. split; [exact one_param_allocated|].
  split; [exact model1_grads|]. split; [exact Hs|].
  exact (@train_step_width unit Examples.idle_step
           (mkGlobals Examples.basis1 Examples.gen_ones) BatchExamples.one_param
           tt 2 1 1 H2 Hne one_param_allocated model1_grads Hs).
Defined.

Lemma step_clipped_stats_bounded_witness :
  Forall (fun r => length r = 2%nat) Examples.basis_rows /\
  Examples.embedding_rows <> [] /\
  Vectorizer.grads_allocated Examples.model1 /\
  (Vectorizer.total_numel Examples.model1 <= 2)%nat /\
  0 < 1 /\
  0 <= 1 /\
  exists org a b md out,
    P_SGD_DP Examples.idle_step (mkGlobals (of_reals 2 Examples.basis_rows) Examples.gen_ones)
      Examples.model1 tt (of_reals 2 Examples.embedding_rows) (Fin 1) (Fin 1)
    = (Ok (org, [Fin a; Fin b; Fin md]), out) /\
    0 <= a <= 1 /\ 0 <= b <= 1 /\ 0 <= md <= 1.
Proof.
  assert (Hne : Examples.embedding_rows <> []) by discriminate.
  assert (Ht : (Vectorizer.total_numel Examples.model1 <= 2)%nat)
    by (vm_compute; lia).
  assert (Hc : 0 < 1) by lra. assert (Hs : 0 <= 1) by lra.
  split; [exact basis_rows_wf|]. split; [exact Hne|]. split; [exact model1_grads|].
  split; [exact Ht|]. split; [exact Hc|]. split; [exact Hs|].
  exact (@step_clipped_stats_bounded unit Examples.idle_step Examples.gen_ones 2
           Examples.basis_rows Examples.embedding_rows Examples.model1 tt 1 1
           basis_rows_wf Hne model1_grads Ht Hc Hs).
Defined.

Lemma rnorm_le_sq (r : list R) (c : R) :
  0 <= c -> rdot r r <= c * c -> rnorm r <= c.
Proof.
  intros Hc H. unfold rnorm. rewrite sum_sq_rdot.
  rewrite <- (sqrt_square c Hc). now apply sqrt_le_1_alt.
Qed.

Lemma embedding_rows_fit :
  Forall (fun g => rnorm (map (rdot g) Examples.basis_rows) <= 10)
    Examples.embedding_rows.
Proof.
  unfold Examples.embedding_rows.
  apply Forall_cons; [|apply Forall_cons; [|apply Forall_nil]];
    (apply rnorm_le_sq; [lra | unfold rdot; simpl; lra]).
Defined.

Lemma private_step_baseline_witness :
  Forall (fun r => length r = 2%nat) Examples.basis_rows /\
  Forall (fun g => length g = 2%nat) Examples.embedding_rows /\
  Examples.embedding_rows <> [] /\
  0 < 10 /\
  Forall (fun g => rnorm (map (rdot g) Examples.basis_rows) <= 10)
    Examples.embedding_rows /\
  Vectorizer.grads_allocated Examples.model1 /\
  (Vectorizer.total_numel Examples.model1 <= 2)%nat /\
  exists stats model' opt' gen',
    P_SGD_DP Examples.idle_step (mkGlobals (of_reals 2 Examples.basis_rows) Examples.gen_ones)
      Examples.model1 tt (of_reals 2 Examples.embedding_rows) (Fin 0) (Fin 10)
    = (Ok stats,
       mkState model' opt' (mkGlobals (of_reals 2 Examples.basis_rows) gen')) /\
    P_SGD Examples.idle_step (mkGlobals (of_reals 2 Examples.basis_rows) Examples.gen_ones)
      Examples.model1 tt (mean_dim0 (of_reals 2 Examples.embedding_rows))
    = (None,
       mkState model' opt'
         (mkGlobals (of_reals 2 Examples.basis_rows) Examples.gen_ones)).
Proof.
  assert (Hg : Forall (fun g => length g = 2%nat) Examples.embedding_rows)
    by (repeat constructor).
  assert (Hne : Examples.embedding_rows <> []) by discriminate.
  assert (Ht : (Vectorizer.total_numel Examples.model1 <= 2)%nat)
    by (vm_compute; lia).
  assert (Hc : 0 < 10) by lra.
  split; [exact basis_rows_wf|]. split; [exact Hg|]. split; [exact Hne|].
  split; [exact Hc|]. split; [exact embedding_rows_fit|].
  split; [exact model1_grads|]. split; [exact Ht|].
  exact (@private_step_baseline unit Examples.idle_step Examples.gen_ones 2
           Examples.basis_rows Examples.embedding_rows Examples.model1 tt 10
           basis_rows_wf Hg Hne Hc embedding_rows_fit model1_grads Ht).
Defined.

Lemma step_propagates_nan_witness :
  ncols (mkMatrix 1 [[NaN]]) = ncols Examples.basis1 /\
  nth_error (mrows (mkMatrix 1 [[NaN]])) 0 = Some [NaN] /\
  nth_error [NaN] 0 = Some NaN /\
  (0 < ncols (mkMatrix 1 [[NaN]]))%nat /\
  nrows Examples.basis1 <> 0%nat /\
  Vectorizer.grads_allocated Examples.model1 /\
  (Vectorizer.total_numel Examples.model1 <= ncols Examples.basis1)%nat /\
  0 <= 1 * 1 /\
  exists stats m',
    Vectorizer.update_grad Examples.model1 (repeat NaN (ncols Examples.basis1))
      = (m', None) /\
    P_SGD_DP Examples.idle_step (mkGlobals Examples.basis1 Examples.gen_ones)
      Examples.model1 tt (mkMatrix 1 [[NaN]]) (Fin 1) (Fin 1)
    = (Ok stats,
       mkState (snd (Examples.idle_step tt m')) (fst (Examples.idle_step tt m'))
         (mkGlobals Examples.basis1
            (snd (randn Examples.gen_ones (nrows Examples.basis1))))).
Proof.
  assert (Hq : (0 < ncols (mkMatrix 1 [[NaN]]))%nat) by (simpl; lia).
  assert (Hk : nrows Examples.basis1 <> 0%nat) by discriminate.
  assert (Ht : (Vectorizer.total_numel Examples.model1
                <= ncols Examples.basis1)%nat) by (vm_compute; lia).
  assert (Hs : 0 <= 1 * 1) by lra.
  split; [reflexivity|]. split; [reflexivity|]. split; [reflexivity|].
  split; [exact Hq|]. split; [exact Hk|]. split; [exact model1_grads|].
  split; [exact Ht|]. split; [exact Hs|].
  exact (@step_propagates_nan unit Examples.idle_step
           (mkGlobals Examples.basis1 Examples.gen_ones) Examples.model1 tt
           (mkMatrix 1 [[NaN]]) 1 1 0 0 [NaN]
           eq_refl eq_refl eq_refl Hq Hk model1_grads Ht Hs).
Defined.

Lemma step_infinite_clip_witness :
  ncols Examples.batch1 = ncols Examples.basis1 /\
  nrows Examples.batch1 <> 0%nat /\
  P_SGD_DP Examples.idle_step (mkGlobals Examples.basis1 Examples.gen_ones)
    Examples.model1 tt Examples.batch1 (Fin 0) PInf
  = (Err RuntimeError_normal_std,
     mkState Examples.model1 tt (mkGlobals Examples.basis1 Examples.gen_ones)).
Proof.
  assert (Hn : nrows Examples.batch1 <> 0%nat) by discriminate.
  split; [reflexivity|]. split; [exact Hn|].
  exact (@step_infinite_clip unit Examples.idle_step
           (mkGlobals Examples.basis1 Examples.gen_ones) Examples.model1 tt
           Examples.batch1 eq_refl Hn).
Defined.
